(** * Pinecone_Loader: a shallow embedding of the ingestion pipeline

    The Python sources under [pinecone_loader/] are embedded as Rocq
    functions.  Python [str] values are sequences of Unicode code points
    ([list N]); Python [int] values are [Z]; a function that may raise
    returns a [result]; dictionaries are [gmap]s keyed by their literal
    field names.  Everything the program obtains from outside (the Unicode
    database, the clock, the file system, the document parser, the
    embedding provider, the vector index, the command-line parser) is a
    variable of the section that models the function using it. *)

From Stdlib Require Import ZArith NArith List Ascii String Lia Decimal DecimalZ.
From stdpp Require Import base list strings gmap.

Local Open Scope Z_scope.

(** ** Python values *)

(** A Python string: its code points, in order. *)
Definition str := list N.

(** An ASCII literal of the source, as code points. *)
Fixpoint lit (s : string) : str :=
  match s with
  | EmptyString => []
  | String a s' => N_of_ascii a :: lit s'
  end.

Coercion lit : string >-> str.

(** [len(s)] *)
Definition len {A} (l : list A) : Z := Z.of_nat (length l).

(** Truth value of a sequence: [not l] holds exactly for the empty one. *)
Definition falsy {A} (l : list A) : bool :=
  match l with [] => true | _ => false end.

Definition str_eqb (a b : str) : bool := bool_decide (a = b).

(** The exception classes the program raises or catches.  [Exception_]
    is the plain [Exception] class; [KeyboardInterrupt] and [SystemExit]
    derive from [BaseException] only. *)
Inductive exn :=
| FileNotFoundError (msg : str)
| ValueError (msg : str)
| OpenAIError (msg : str)
| Exception_ (msg : str)
| KeyboardInterrupt
| SystemExit (code : Z).

(** [isinstance(e, Exception)] *)
Definition is_Exception (e : exn) : bool :=
  match e with
  | KeyboardInterrupt | SystemExit _ => false
  | _ => true
  end.

(** [str(e)] *)
Definition exn_str (e : exn) : str :=
  match e with
  | FileNotFoundError m | ValueError m | OpenAIError m | Exception_ m => m
  | KeyboardInterrupt => []
  | SystemExit c => []
  end.

Inductive result (A : Type) :=
| OK (a : A)
| Raise (e : exn).
Arguments OK {A} a.
Arguments Raise {A} e.

(** Sequencing of calls that may raise: the first exception propagates. *)
#[export] Instance result_bind : MBind result := fun A B k r =>
  match r with
  | OK a => k a
  | Raise e => Raise e
  end.

#[export] Instance result_ret : MRet result := fun A a => OK a.

(** ** String primitives *)

Local Open Scope N_scope.

(** Code points that [str.strip()] removes and [str.isspace] accepts. *)
Definition isspace (c : N) : bool :=
  ((9 <=? c) && (c <=? 13)) || ((28 <=? c) && (c <=? 32))
  || (c =? 133) || (c =? 160) || (c =? 5760)
  || ((8192 <=? c) && (c <=? 8202))
  || (c =? 8232) || (c =? 8233) || (c =? 8239) || (c =? 8287)
  || (c =? 12288).

(** [c.isalnum()] on the code points below 128, the only ones it is
    applied to in this program. *)
Definition isalnum (c : N) : bool :=
  ((48 <=? c) && (c <=? 57)) || ((65 <=? c) && (c <=? 90))
  || ((97 <=? c) && (c <=? 122)).

(** ASCII lower-casing, as [str.lower()] acts on code points below 128. *)
Definition lower_char (c : N) : N :=
  if (65 <=? c) && (c <=? 90) then c + 32 else c.

Definition lower (s : str) : str := map lower_char s.

Local Close Scope N_scope.

Fixpoint lstrip (s : str) : str :=
  match s with
  | [] => []
  | c :: s' => if isspace c then lstrip s' else s
  end.

Definition rstrip (s : str) : str := rev (lstrip (rev s)).

(** [s.strip()] *)
Definition strip (s : str) : str := rstrip (lstrip s).

Fixpoint starts_with (p s : str) : bool :=
  match p, s with
  | [], _ => true
  | _ :: _, [] => false
  | a :: p', b :: s' => N.eqb a b && starts_with p' s'
  end.

(** [sep in s], for a non-empty [sep]. *)
Fixpoint occurs (sep s : str) : bool :=
  match s with
  | [] => falsy sep
  | _ :: s' => starts_with sep s || occurs sep s'
  end.

(** [s.split(sep)] for a non-empty [sep]: leftmost, non-overlapping
    occurrences.  [skip] counts the characters of a matched separator that
    are still to be passed over; [cur] is the piece being read, reversed. *)
Fixpoint split_go (sep : str) (skip : nat) (cur : str) (s : str) : list str :=
  match s with
  | [] => [rev cur]
  | c :: s' =>
      match skip with
      | S k => split_go sep k cur s'
      | O =>
          if starts_with sep s
          then rev cur :: split_go sep (length sep - 1) [] s'
          else split_go sep 0 (c :: cur) s'
      end
  end.

Definition split (sep s : str) : list str := split_go sep 0 [] s.

(** [sep.join(l)] *)
Fixpoint join (sep : str) (l : list str) : str :=
  match l with
  | [] => []
  | x :: l' =>
      match l' with
      | [] => x
      | _ :: _ => x ++ sep ++ join sep l'
      end
  end.

(** [s.rfind(c)] for a single character: the last index, or -1. *)
Fixpoint rfind_from (c : N) (s : str) (i found : Z) : Z :=
  match s with
  | [] => found
  | x :: s' => rfind_from c s' (i + 1) (if N.eqb x c then i else found)
  end.

Definition rfind (c : N) (s : str) : Z := rfind_from c s 0 (-1).

(** Decimal digits of an unsigned decimal numeral. *)
Fixpoint digits (d : Decimal.uint) : str :=
  match d with
  | Decimal.Nil => []
  | Decimal.D0 d => 48%N :: digits d
  | Decimal.D1 d => 49%N :: digits d
  | Decimal.D2 d => 50%N :: digits d
  | Decimal.D3 d => 51%N :: digits d
  | Decimal.D4 d => 52%N :: digits d
  | Decimal.D5 d => 53%N :: digits d
  | Decimal.D6 d => 54%N :: digits d
  | Decimal.D7 d => 55%N :: digits d
  | Decimal.D8 d => 56%N :: digits d
  | Decimal.D9 d => 57%N :: digits d
  end.

(** [str(z)], also what an f-string substitutes for an [int]. *)
Definition str_int (z : Z) : str :=
  match Z.to_int z with
  | Decimal.Pos d => digits d
  | Decimal.Neg d => 45%N :: digits d
  end.

(** ** pathlib (POSIX flavour) *)

Record PurePath := { root : str; parts : list str }.

Definition is_component (c : str) : bool :=
  negb (falsy c) && negb (str_eqb c ".").

Fixpoint leading_slashes (s : str) : nat :=
  match s with
  | c :: s' => if N.eqb c 47 then S (leading_slashes s') else O
  | [] => O
  end.

(** [Path(p)]: components separated by [/]; empty and [.] components are
    dropped; exactly two leading slashes are kept, any other positive
    number collapses to one. *)
Definition Path (p : str) : PurePath :=
  {| root := match leading_slashes p with
             | O => []
             | 2%nat => "//"
             | _ => "/"
             end;
     parts := List.filter is_component (split "/" p) |}.

(** [str(path)] *)
Definition path_str (P : PurePath) : str :=
  match root P, parts P with
  | [], [] => "."
  | r, ps => r ++ join (lit "/") ps
  end.

(** [path.name] *)
Definition name (P : PurePath) : str := default [] (last (parts P)).

(** The index at which [stem] and [suffix] cut the name, if any. *)
Definition suffix_index (nm : str) : option nat :=
  let i := rfind 46 nm in
  if (0 <? i) && (i <? len nm - 1) then Some (Z.to_nat i) else None.

(** [path.stem] *)
Definition stem (P : PurePath) : str :=
  match suffix_index (name P) with
  | Some i => take i (name P)
  | None => name P
  end.

(** [path.suffix] *)
Definition suffix (P : PurePath) : str :=
  match suffix_index (name P) with
  | Some i => drop i (name P)
  | None => []
  end.

(** ** pinecone_store.py: identifiers and metadata *)

(** A value stored in a metadata dictionary. *)
Inductive pyval :=
| PyStr (s : str)
| PyInt (z : Z).

Section Deriver.
(** [unicodedata.normalize('NFD', _)], from the interpreter's Unicode
    database. *)
Variable nfd : str -> str.

(** [datetime.now().isoformat()] as read when the metadata of chunk [i]
    are built. *)
Variable now_isoformat : Z -> str.

Definition ascii_only (s : str) : str :=
  List.filter (fun c => (c <? 128)%N) s.

Definition underscore_non_alnum (s : str) : str :=
  map (fun c => if isalnum c then c else 95%N) s.

Definition collapse_underscores (s : str) : str :=
  join "_" (List.filter (fun p => negb (falsy p)) (split "_" s)).

(** The name part of a vector ID. *)
Definition clean_name (file_path : str) : str :=
  let base_name := stem (Path file_path) in
  let normalized := nfd base_name in
  let ascii_name := ascii_only normalized in
  collapse_underscores (underscore_non_alnum ascii_name).

Definition generate_vector_id (file_path : str) (chunk_index : Z) : str :=
  clean_name file_path ++ lit "_chunk_" ++ str_int chunk_index.

Definition create_metadata (text_chunk file_path : str) (chunk_index : Z)
  : gmap string pyval :=
  let file_path := Path file_path in
  list_to_map
    [ ("text"%string, PyStr text_chunk);
      ("source"%string, PyStr (name file_path));
      ("file_path"%string, PyStr (path_str file_path));
      ("chunk_index"%string, PyInt chunk_index);
      ("chunk_length"%string, PyInt (len text_chunk));
      ("timestamp"%string, PyStr (now_isoformat chunk_index));
      ("document_type"%string, PyStr "word_document") ].
End Deriver.


(** ** Handling exceptions *)

(** [try: r  except Exception as e: h e]: classes outside [Exception]
    pass through. *)
Definition except_Exception {A} (r : result A) (h : exn -> result A)
  : result A :=
  match r with
  | OK a => OK a
  | Raise e => if is_Exception e then h e else Raise e
  end.

Definition NL : str := [10%N].

(** ** document_reader.py *)

Section Reader.
(** [Path.exists], answered by the file system. *)
Variable path_exists : str -> bool.

(** [Document(path).paragraphs], each paragraph given by its [text];
    the parser may raise. *)
Variable docx_paragraphs : str -> result (list str).

Definition extract_text (paragraphs : list str) : list str :=
  List.filter (fun text => negb (falsy text)) (map strip paragraphs).

Definition read_document (file_path : str) : result str :=
  let file_path := Path file_path in
  let body :=
    if negb (path_exists (path_str file_path))
    then Raise (FileNotFoundError
                  (lit "Document not found: " ++ path_str file_path))
    else
      paragraphs ← docx_paragraphs (path_str file_path);
      let text_content := extract_text paragraphs in
      let full_text := join NL text_content in
      if falsy (strip full_text)
      then Raise (ValueError
                    (lit "No text content found in document: "
                     ++ name file_path))
      else OK full_text in
  except_Exception body (fun e =>
    match e with
    | FileNotFoundError _ | ValueError _ => Raise e
    | _ => Raise (Exception_
                    (lit "Error reading document " ++ name file_path
                     ++ lit ": " ++ exn_str e))
    end).
End Reader.

(** ** text_splitter.py *)

(** The splitter object that [split_text] builds, a
    [RecursiveCharacterTextSplitter], comes from a library that is not
    part of the sources.  The definitions of this section follow the
    description of the chunker in section 4.1 of the specification. *)

Section Chunker.
Variables chunk_size chunk_overlap : Z.

(** Modelled from the spec: splitting on a separator.  [s] is cut in
    front of every occurrence of a non-empty [sep] (leftmost,
    non-overlapping); the separator stays at the head of the fragment
    that follows it, so that no character is dropped.  [skip] counts the
    characters of a matched separator still to be passed over; [cur] is
    the fragment being read, reversed. *)
Fixpoint cut_go (sep : str) (skip : nat) (cur : str) (s : str)
  : list str :=
  match s with
  | [] => [rev cur]
  | c :: s' =>
      match skip with
      | S k => cut_go sep k (c :: cur) s'
      | O =>
          if starts_with sep s
          then rev cur :: cut_go sep (length sep - 1) [c] s'
          else cut_go sep 0 (c :: cur) s'
      end
  end.

(** Modelled from the spec: the fragments of [text] for one separator;
    "no separator" is the hard character cut, between any two
    characters. *)
Definition fragments (sep text : str) : list str :=
  List.filter (fun f => negb (falsy f))
    (match sep with
     | [] => map (fun c => [c]) text
     | _ :: _ => cut_go sep 0 [] text
     end).

(** Modelled from the spec: one chunk, the fragments of a window glued
    together and trimmed; nothing if only whitespace is left. *)
Definition join_docs (current_doc : list str) : list str :=
  let text := strip (concat current_doc) in
  if falsy text then [] else [text].

(** Modelled from the spec: the tail of a closed window that opens the
    next one.  Fragments leave the front until what is kept is at most
    [chunk_overlap] long and leaves room for the next fragment, of
    length [_len]. *)
Fixpoint pop_front (current_doc : list str) (total _len : Z)
  : list str * Z :=
  match current_doc with
  | [] => ([], total)
  | d :: rest =>
      if (chunk_overlap <? total)
         || ((chunk_size <? total + _len) && (0 <? total))
      then pop_front rest (total - len d) _len
      else (current_doc, total)
  end.

(** Modelled from the spec: merging adjacent fragments into windows.
    Fragments are appended to the current window while they fit in
    [chunk_size]; a fragment that does not fit closes the window, and
    the next window starts with the tail that [pop_front] keeps, so that
    it overlaps its predecessor by up to [chunk_overlap] characters.
    [total] is the length of the current window. *)
Fixpoint merge_go (current_doc : list str) (total : Z)
  (splits : list str) : list str :=
  match splits with
  | [] => join_docs current_doc
  | d :: rest =>
      let _len := len d in
      if (chunk_size <? total + _len) && negb (falsy current_doc)
      then
        let '(kept, total') := pop_front current_doc total _len in
        join_docs current_doc ++ merge_go (kept ++ [d]) (total' + _len) rest
      else merge_go (current_doc ++ [d]) (total + _len) rest
  end.

(** Modelled from the spec: the windows of a run of fragments. *)
Definition merge_splits (splits : list str) : list str :=
  merge_go [] 0 splits.

(** Modelled from the spec: the windows of the fragments collected so
    far, if any. *)
Definition flush (good_splits : list str) : list str :=
  if falsy good_splits then [] else merge_splits good_splits.

(** Modelled from the spec: the fragments of one separator, in order.
    Those not longer than [chunk_size] are collected and merged into
    windows; to a fragment still longer than [chunk_size] the next
    separators are applied ([recurse]); it is emitted as it is when no
    separator remains. *)
Fixpoint process (recurse : option (str -> list str))
  (good_splits : list str) (splits : list str) : list str :=
  match splits with
  | [] => flush good_splits
  | s :: rest =>
      if len s <=? chunk_size
      then process recurse (good_splits ++ [s]) rest
      else
        flush good_splits
        ++ match recurse with
           | None => [s]
           | Some split_further => split_further s
           end
        ++ process recurse [] rest
  end.

(** Modelled from the spec: the recursive split over the prioritised
    separator list [sep :: rest].  The separators are tried in priority
    order; the first one that occurs in the text splits it, the empty
    one always does (the hard cut, with which the recursion ends), and
    the separators after it are applied to the fragments that are still
    too long. *)
Fixpoint split_rec (sep : str) (rest : list str) (text : str)
  {struct rest} : list str :=
  match rest with
  | [] => process None [] (fragments sep text)
  | sep' :: rest' =>
      if falsy sep then process None [] (fragments sep text)
      else if occurs sep text
           then process (Some (split_rec sep' rest')) []
                  (fragments sep text)
           else split_rec sep' rest' text
  end.
End Chunker.

(** Neither name is defined in [config.py], so the import fails and the
    module falls back on these values. *)
Definition CHUNK_SIZE : Z := 1000.
Definition CHUNK_OVERLAP : Z := 200.

(** [separators=["\n\n", "\n", ". ", "! ", "? ", "; ", ", ", " ", ""]] *)
Definition separators : list str :=
  [ NL ++ NL; NL; lit ". "; lit "! "; lit "? "; lit "; "; lit ", ";
    lit " "; [] ].

(** Modelled from the spec: [text_splitter.split_text(document_text)]
    of the splitter object, with the separator list of the source. *)
Definition splitter_split_text (chunk_size chunk_overlap : Z)
  (text : str) : list str :=
  split_rec chunk_size chunk_overlap (NL ++ NL) (tail separators) text.

Definition empty_text_error : exn :=
  ValueError (lit "Document text cannot be empty").

Definition no_chunks_error : exn :=
  ValueError (lit "No valid chunks created from document text").

Definition split_text (document_text : str) : result (list str) :=
  if falsy document_text || falsy (strip document_text)
  then Raise empty_text_error
  else
    let chunks := splitter_split_text CHUNK_SIZE CHUNK_OVERLAP document_text in
    let cleaned_chunks :=
      map strip (List.filter (fun chunk => negb (falsy (strip chunk))) chunks) in
    except_Exception
      (if falsy cleaned_chunks then Raise no_chunks_error
       else OK cleaned_chunks)
      (fun e => Raise (Exception_ (lit "Error splitting text: " ++ exn_str e))).

(** ** embedding_generator.py *)

Section Embedding.
(** An embedding vector; its coordinates play no role here. *)
Variable Embedding : Type.

(** [client.embeddings.create(model, input, dimensions)] followed by
    the extraction of the vectors from the response. *)
Variable embeddings_create : list str -> result (list Embedding).

Definition generate_embeddings (text_chunks : list str)
  : result (list Embedding) :=
  if falsy text_chunks
  then Raise (ValueError (lit "Text chunks list cannot be empty"))
  else
    match embeddings_create text_chunks with
    | OK embeddings => OK embeddings
    | Raise (OpenAIError m) =>
        Raise (Exception_ (lit "OpenAI API error: " ++ m))
    | Raise e =>
        if is_Exception e
        then Raise (Exception_
                      (lit "Error generating embeddings: " ++ exn_str e))
        else Raise e
    end.
End Embedding.

(** ** pinecone_store.py: the upsert *)

Definition PINECONE_INDEX_NAME : str := lit "chatbot-rag".

(** What [store_embeddings] returns. *)
Record store_result := {
  success : bool;
  vectors_stored : Z;
  index_name : str;
  file_source : str;
  vector_ids : list str
}.

Section Store.
Variable nfd : str -> str.
Variable now_isoformat : Z -> str.
Variable Embedding : Type.

(** One [(id, values, metadata)] tuple. *)
Definition vector : Type := str * Embedding * gmap string pyval.

(** The remote index and what [index.upsert] does to it; the response
    carries [upserted_count] or not. *)
Variable Index : Type.
Variable index_upsert : Index -> list vector -> result (option Z) * Index.

(** The index together with the record of the batches sent to it. *)
Record pinecone := { remote : Index; upserts : list (list vector) }.

Definition upsert (w : pinecone) (vectors : list vector)
  : result (option Z) * pinecone :=
  let '(response, remote') := index_upsert (remote w) vectors in
  (response, {| remote := remote'; upserts := upserts w ++ [vectors] |}).

Definition count_mismatch_error (embeddings : list Embedding)
  (text_chunks : list str) : exn :=
  ValueError (lit "Embeddings count (" ++ str_int (len embeddings)
              ++ lit ") must match text chunks count ("
              ++ str_int (len text_chunks) ++ lit ")").

Definition vectors_to_upsert (embeddings : list Embedding)
  (text_chunks : list str) (file_path : str) : list vector :=
  imap (fun i '(embedding, text_chunk) =>
          (generate_vector_id nfd file_path (Z.of_nat i), embedding,
           create_metadata now_isoformat text_chunk file_path (Z.of_nat i)))
       (zip embeddings text_chunks).

Definition store_embeddings (w : pinecone) (embeddings : list Embedding)
  (text_chunks : list str) (file_path : str)
  : result store_result * pinecone :=
  if falsy embeddings
  then (Raise (ValueError (lit "Embeddings list cannot be empty")), w)
  else if falsy text_chunks
  then (Raise (ValueError (lit "Text chunks list cannot be empty")), w)
  else if negb (len embeddings =? len text_chunks)
  then (Raise (count_mismatch_error embeddings text_chunks), w)
  else
    let '(response, w') :=
      upsert w (vectors_to_upsert embeddings text_chunks file_path) in
    (except_Exception
       (upsert_response ← response;
        let upserted_count := default 0 upsert_response in
        OK {| success := true;
              vectors_stored := upserted_count;
              index_name := PINECONE_INDEX_NAME;
              file_source := name (Path file_path);
              vector_ids :=
                map (fun i => generate_vector_id nfd file_path (Z.of_nat i))
                    (seq 0 (length embeddings)) |})
       (fun e => Raise (Exception_
                          (lit "Error storing embeddings in Pinecone: "
                           ++ exn_str e))),
     w').

(** ** run.py *)

Variable path_exists : str -> bool.
Variable docx_paragraphs : str -> result (list str).
Variable embeddings_create : list str -> result (list Embedding).

(** [parser.parse_args()] on the command line, for the parser that
    [parse_arguments] builds. *)
Variable parse_args : list str -> result str.

Definition validate_file_path (file_path : str) : result PurePath :=
  let file_path := Path file_path in
  if negb (path_exists (path_str file_path))
  then Raise (FileNotFoundError (lit "File not found: " ++ path_str file_path))
  else if negb (bool_decide (lower (suffix file_path)
                             ∈ [lit ".docx"; lit ".doc"]))
  then Raise (ValueError
                (lit "File must be a Word document (.docx or .doc), got: "
                 ++ suffix file_path))
  else OK file_path.

Definition parse_arguments (argv : list str) : result str :=
  parse_args argv.

(** The four steps in order; the first exception ends them. *)
Definition pipeline (w : pinecone) (file_path : str)
  : result store_result * pinecone :=
  match read_document path_exists docx_paragraphs file_path with
  | Raise e => (Raise e, w)
  | OK document_text =>
      match split_text document_text with
      | Raise e => (Raise e, w)
      | OK text_chunks =>
          match generate_embeddings Embedding embeddings_create text_chunks with
          | Raise e => (Raise e, w)
          | OK embeddings =>
              store_embeddings w embeddings text_chunks file_path
          end
      end
  end.

Definition process_document (w : pinecone) (file_path : str)
  : result bool * pinecone :=
  let '(r, w') := pipeline w file_path in
  (except_Exception (_ ← r; OK true) (fun _ => OK false), w').

(** What leaves the [try] block of [main]: every path through it ends
    in an exception, [sys.exit] included. *)
Definition main_try (argv : list str) (w : pinecone) : exn * pinecone :=
  match parse_arguments argv with
  | Raise e => (e, w)
  | OK file_path =>
      match validate_file_path file_path with
      | Raise e => (e, w)
      | OK validated_path =>
          match process_document w (path_str validated_path) with
          | (Raise e, w') => (e, w')
          | (OK true, w') => (SystemExit 0, w')
          | (OK false, w') => (SystemExit 1, w')
          end
      end
  end.

(** The exit status of the process and the index it leaves behind. *)
Definition main (argv : list str) (w : pinecone) : Z * pinecone :=
  let '(e, w') := main_try argv w in
  (match e with
   | SystemExit code => code
   | FileNotFoundError _ | ValueError _ => 1
   | KeyboardInterrupt => 1
   | OpenAIError _ | Exception_ _ => 1
   end, w').
End Store.

(** ** The command-line parser *)

(** How argparse (as of CPython 3.11) reads one word of the command
    line when the parser has the positional [file_path] and the
    [-h]/[--help] option it adds by itself. *)
Inductive arg_class :=
| ArgPositional   (* a value for a positional *)
| ArgHelp         (* the help option, also abbreviated or repeated *)
| ArgRejected     (* the help option with a value attached *)
| ArgUnknown.     (* an option the parser does not know *)

Definition has (c : N) (s : str) : bool := existsb (N.eqb c) s.

Fixpoint before (c : N) (s : str) : str :=
  match s with
  | [] => []
  | x :: s' => if N.eqb x c then [] else x :: before c s'
  end.

Fixpoint after (c : N) (s : str) : option str :=
  match s with
  | [] => None
  | x :: s' => if N.eqb x c then Some s' else after c s'
  end.

Definition is_digit (c : N) : bool := (48 <=? c)%N && (c <=? 57)%N.

(** The code points of digit zero in the blocks of ten decimal digits
    of Unicode 14.0 (general category Nd). *)
Definition decimal_blocks : list N :=
  [ 48; 1632; 1776; 1984; 2406; 2534; 2662; 2790; 2918; 3046; 3174;
    3302; 3430; 3558; 3664; 3792; 3872; 4160; 4240; 6112; 6160; 6470;
    6608; 6784; 6800; 6992; 7088; 7232; 7248; 42528; 43216; 43264;
    43472; 43504; 43600; 44016; 65296; 66720; 68912; 69734; 69872;
    69942; 70096; 70384; 70736; 70864; 71248; 71360; 71472; 71904;
    72016; 72784; 73040; 73120; 92768; 92864; 93008; 120782; 120792;
    120802; 120812; 120822; 123200; 123632; 125264; 130032 ]%N.

(** What [\d] matches in a pattern on [str]: any decimal digit. *)
Definition is_decimal (c : N) : bool :=
  existsb (fun zero => (zero <=? c)%N && (c <=? zero + 9)%N) decimal_blocks.

Definition all_decimals (s : str) : bool :=
  negb (falsy s) && forallb is_decimal s.

(** [$] matches at the end and before a newline that ends the string:
    [s] without such a newline. *)
Definition chomp (s : str) : str :=
  match rev s with
  | 10%N :: r => rev r
  | _ => s
  end.

(** A word that argparse takes for a negative number: it matches
    [^-\d+$|^-\d*\.\d+$]. *)
Definition negative_number (a : str) : bool :=
  match a with
  | 45%N :: body =>
      let body := chomp body in
      all_decimals body
      || (forallb is_decimal (before 46 body)
          && match after 46 body with
             | Some frac => all_decimals frac
             | None => false
             end)
  | _ => false
  end.

Definition classify (a : str) : arg_class :=
  let otherwise :=
    if negative_number a || has 32 a then ArgPositional else ArgUnknown in
  match a with
  | [] => ArgPositional
  | c :: rest =>
      if negb (N.eqb c 45) then ArgPositional
      else if str_eqb a "-h" || str_eqb a "--help" then ArgHelp
      else
        match rest with
        | [] => ArgPositional
        | 45%N :: _ =>
            if starts_with (before 61 a) "--help"
            then if has 61 a then ArgRejected else ArgHelp
            else otherwise
        | 104%N :: more =>
            if forallb (N.eqb 104) more then ArgHelp else ArgRejected
        | _ :: _ => otherwise
        end
  end.

(** The end of the command line: exactly one positional and nothing
    unrecognised, or a usage error. *)
Definition finish (positionals : list str) (extras : bool) : result str :=
  match positionals with
  | [file_path] => if extras then Raise (SystemExit 2) else OK file_path
  | _ => Raise (SystemExit 2)
  end.

(** [ArgumentParser.parse_args] for that parser: the words are taken
    from left to right; help ends the process with status 0 as soon as
    it is met, a usage error ends it with status 2; after [--] every
    word is positional. *)
Fixpoint argparse_scan (args positionals : list str) (extras : bool)
  : result str :=
  match args with
  | [] => finish positionals extras
  | a :: rest =>
      if str_eqb a "--" then finish (positionals ++ rest) extras
      else
        match classify a with
        | ArgPositional => argparse_scan rest (positionals ++ [a]) extras
        | ArgHelp => Raise (SystemExit 0)
        | ArgRejected => Raise (SystemExit 2)
        | ArgUnknown => argparse_scan rest positionals true
        end
  end.

Definition argparse_parse_args (argv : list str) : result str :=
  argparse_scan argv [] false.

(** ** Concrete surroundings, for running the model *)

(** Canonical decomposition of the letters of the Latin-1 Supplement
    (U+00C0 to U+00FF): base letter and combining mark, from the Unicode
    character database. *)
Definition latin1_upper (c : N) : option (N * N) :=
  match c with
  | 192 => Some (65, 768) | 193 => Some (65, 769) | 194 => Some (65, 770)
  | 195 => Some (65, 771) | 196 => Some (65, 776) | 197 => Some (65, 778)
  | 199 => Some (67, 807)
  | 200 => Some (69, 768) | 201 => Some (69, 769) | 202 => Some (69, 770)
  | 203 => Some (69, 776)
  | 204 => Some (73, 768) | 205 => Some (73, 769) | 206 => Some (73, 770)
  | 207 => Some (73, 776)
  | 209 => Some (78, 771)
  | 210 => Some (79, 768) | 211 => Some (79, 769) | 212 => Some (79, 770)
  | 213 => Some (79, 771) | 214 => Some (79, 776)
  | 217 => Some (85, 768) | 218 => Some (85, 769) | 219 => Some (85, 770)
  | 220 => Some (85, 776)
  | 221 => Some (89, 769)
  | _ => None
  end%N.

Definition latin1_decomposition (c : N) : list N :=
  match latin1_upper c with
  | Some (b, m) => [b; m]
  | None =>
      if (c =? 255)%N then [121; 776]%N
      else match latin1_upper (c - 32) with
           | Some (b, m) => if (224 <=? c)%N then [b + 32; m]%N else [c]
           | None => [c]
           end
  end.

(** NFD on strings of code points up to U+00FF without combining marks
    of their own; other code points are passed on as they are. *)
Definition nfd_latin1 (s : str) : str := flat_map latin1_decomposition s.

Definition fixed_clock (_ : Z) : str := lit "2025-01-01T00:00:00".

(** An index held in memory: upsert writes each vector under its ID and
    answers with the number of vectors received. *)
Definition memory_index : Type := gmap str (Z * gmap string pyval).

Definition memory_upsert (idx : memory_index)
  (vectors : list (vector Z)) : result (option Z) * memory_index :=
  (OK (Some (len vectors)),
   foldl (fun m '(id, values, metadata) => <[id := (values, metadata)]> m)
         idx vectors).

Definition empty_pinecone : pinecone Z memory_index :=
  {| remote := ∅; upserts := [] |}.

(** A provider that loses the last vector of every batch. *)
Definition lossy_embeddings (chunks : list str) : result (list Z) :=
  OK (tail (imap (fun i _ => Z.of_nat i) chunks)).

Definition exact_embeddings (chunks : list str) : result (list Z) :=
  OK (imap (fun i _ => Z.of_nat i) chunks).

(** ** Vocabulary of the properties *)

(** The characters allowed in a vector ID: [A-Za-z0-9_]. *)
Definition id_char (c : N) : bool := isalnum c || N.eqb c 95.

(** What a call [generate_vector_id(file_path, chunk_index)] yields: the
    body has no [raise], and the library calls in it accept every string
    and every integer. *)
Definition call_generate_vector_id (nfd : str -> str) (file_path : str)
  (chunk_index : Z) : result str :=
  OK (generate_vector_id nfd file_path chunk_index).

(** The file name of the specification's example, "Résumé Final.docx",
    its stem, and the stem decomposed (U+0301 is the combining acute). *)
Definition resume_docx : str :=
  lit "R" ++ [233%N] ++ lit "sum" ++ [233%N] ++ lit " Final.docx".
Definition resume_stem : str :=
  lit "R" ++ [233%N] ++ lit "sum" ++ [233%N] ++ lit " Final".
Definition resume_decomposed : str :=
  lit "Re" ++ [769%N] ++ lit "sume" ++ [769%N] ++ lit " Final".

(** The keys of a metadata dictionary. *)
Definition metadata_keys : gset string :=
  {[ "text"; "source"; "file_path"; "chunk_index"; "chunk_length";
     "timestamp"; "document_type" ]}%string.

(** A string of whitespace only (the empty string included). *)
Definition blank (s : str) : bool := forallb isspace s.

(** The size bound of the chunker. *)
Definition fits (chunk_size : Z) (chunk : str) : Prop :=
  len chunk <= chunk_size.

(** The fragments that [process] can emit unchanged are those longer
    than [chunk_size] when no separator remains: the bound
    holds if there is none, or if the remaining separators ensure it. *)
Definition recursion_fits (chunk_size : Z)
  (recurse : option (str -> list str)) (splits : list str) : Prop :=
  match recurse with
  | None => Forall (fits chunk_size) splits
  | Some split_further =>
      forall s, Forall (fits chunk_size) (split_further s)
  end.

(** A string with a character that is not whitespace. *)
Definition inked (s : str) : Prop := blank s = false.

(** A string that starts with a character other than whitespace, or is
    empty. *)
Definition head_ok (s : str) : Prop :=
  match s with
  | [] => True
  | c :: _ => isspace c = false
  end.

(** The lines of a text. *)
Definition lines (text : str) : list str := split NL text.

(** A parser that finds the given paragraphs in every file, and a file
    system in which every path exists. *)
Definition paragraphs_of (paragraphs : list str) (_ : str)
  : result (list str) := OK paragraphs.
Definition every_path (_ : str) : bool := true.

(** The pipeline run from the command line with the concrete
    surroundings: every path exists, the document has the given
    paragraphs, the index is held in memory and starts empty. *)
Definition demo_main (paragraphs : list str)
  (embeddings_create : list str -> result (list Z)) (argv : list str)
  : Z * pinecone Z memory_index :=
  main nfd_latin1 fixed_clock Z memory_index memory_upsert every_path
    (paragraphs_of paragraphs) embeddings_create argparse_parse_args
    argv empty_pinecone.

(** ** text_splitter.py: the test entry points *)

(** [s.endswith(suffix)] *)
Definition ends_with (suffix s : str) : bool :=
  starts_with (rev suffix) (rev s).

Section SplitterTests.
Variable path_exists : str -> bool.
Variable docx_paragraphs : str -> result (list str).

(** The chunks of a document, or [None] after an error message; the
    two debug helpers only print. *)
Definition test_with_document_reader (file_path : str)
  : result (option (list str)) :=
  except_Exception
    (document_text ← read_document path_exists docx_paragraphs file_path;
     chunks ← split_text document_text;
     OK (Some chunks))
    (fun _ => OK None).

(** The script [text_splitter.py], run with [sys.argv]: its exit status,
    or the exception that ends it uncaught. *)
Definition text_splitter_main (sys_argv : list str) : result Z :=
  match sys_argv with
  | [_; input_arg] =>
      except_Exception
        (chunks ←
           (if ends_with (lit ".docx") input_arg
               || ends_with (lit ".doc") input_arg
            then test_with_document_reader input_arg
            else chunks ← split_text input_arg; OK (Some chunks));
         OK 0)
        (fun _ => OK 1)
  | _ => OK 1
  end.
End SplitterTests.

(** The ID of an [(id, values, metadata)] tuple. *)
Definition vector_id {Embedding : Type} (v : vector Embedding) : str :=
  v.1.1.

(** The underscore. *)
Definition underscore : N := 95%N.

Section Stored.
Variable nfd : str -> str.
Variable now_isoformat : Z -> str.
Variable Embedding : Type.
Variable Index : Type.
Variable path_exists : str -> bool.
Variable docx_paragraphs : str -> result (list str).
Variable embeddings_create : list str -> result (list Embedding).

(** Between the states [w] and [w'] of the index, the store step was
    reached with the results of the three steps before it, and sent
    their batch. *)
Definition stored (w w' : pinecone Embedding Index) (file_path : str)
  : Prop :=
  exists text text_chunks embeddings,
    read_document path_exists docx_paragraphs file_path = OK text
    /\ split_text text = OK text_chunks
    /\ generate_embeddings Embedding embeddings_create text_chunks
       = OK embeddings
    /\ length embeddings = length text_chunks
    /\ upserts _ _ w'
       = upserts _ _ w
         ++ [vectors_to_upsert nfd now_isoformat Embedding embeddings
               text_chunks file_path]
    /\ length (vectors_to_upsert nfd now_isoformat Embedding embeddings
                 text_chunks file_path)
       = length text_chunks.
End Stored.

(** ** document_reader.py: the existence check may fail *)

(** What [file_path.exists()] does: it answers, or the underlying stat
    call fails with an [OSError] that pathlib does not take for absence
    (a name that is too long, a directory that may not be searched). *)
Inductive exists_outcome :=
| Answers (b : bool)
| FailsOSError (msg : str).

Section ReaderOS.
Variable path_exists_os : str -> exists_outcome.
Variable docx_paragraphs : str -> result (list str).

(** [read_document] with the failure of the existence check kept.  The
    check sits inside the [try]; its [OSError] is neither a
    [FileNotFoundError] nor a [ValueError], so the handler re-raises it
    as a plain [Exception] that names the file. *)
Definition read_document_os (file_path : str) : result str :=
  let file_path := Path file_path in
  match path_exists_os (path_str file_path) with
  | FailsOSError msg =>
      Raise (Exception_
               (lit "Error reading document " ++ name file_path
                ++ lit ": " ++ msg))
  | Answers found =>
      let body :=
        if negb found
        then Raise (FileNotFoundError
                      (lit "Document not found: " ++ path_str file_path))
        else
          paragraphs ← docx_paragraphs (path_str file_path);
          let text_content := extract_text paragraphs in
          let full_text := join NL text_content in
          if falsy (strip full_text)
          then Raise (ValueError
                        (lit "No text content found in document: "
                         ++ name file_path))
          else OK full_text in
      except_Exception body (fun e =>
        match e with
        | FileNotFoundError _ | ValueError _ => Raise e
        | _ => Raise (Exception_
                        (lit "Error reading document " ++ name file_path
                         ++ lit ": " ++ exn_str e))
        end)
  end.
End ReaderOS.

(** An existence check that no file passes, one that every file passes,
    and one that fails with the given message. *)
Definition no_path_os (_ : str) : exists_outcome := Answers false.
Definition every_path_os (_ : str) : exists_outcome := Answers true.
Definition failing_path_os (msg : str) (_ : str) : exists_outcome :=
  FailsOSError msg.

(** * Checks on concrete inputs *)

Example ex_split : split "_" "a__b_" = [lit "a"; []; lit "b"; []].
Proof. reflexivity. Qed.

Example ex_id : generate_vector_id (fun s => s) "dir/My  file-v2.final.docx" 12
                = lit "My_file_v2_final_chunk_12".
Proof. vm_compute. reflexivity. Qed.

Example ex_path : path_str (Path "a//b/./c/") = lit "a/b/c" /\ name (Path "a/b/") = lit "b"
   /\ stem (Path ".docx") = lit ".docx" /\ suffix (Path "x/y.tar.GZ") = lit ".GZ".
Proof. vm_compute. repeat split. Qed.

Example ex_nfd : nfd_latin1 (lit "R" ++ [233%N] ++ lit "sum" ++ [233%N])
                 = lit "Re" ++ [769%N] ++ lit "sume" ++ [769%N].
Proof. reflexivity. Qed.

Example ex_argparse :
  argparse_parse_args [] = Raise (SystemExit 2)
  /\ argparse_parse_args [lit "a.docx"] = OK (lit "a.docx")
  /\ argparse_parse_args [lit "a.docx"; lit "b.docx"] = Raise (SystemExit 2)
  /\ argparse_parse_args [lit "--he"] = Raise (SystemExit 0)
  /\ argparse_parse_args [lit "-x"; lit "a.docx"] = Raise (SystemExit 2)
  /\ argparse_parse_args [lit "--"; lit "-x"] = OK (lit "-x").
Proof. vm_compute. repeat split. Qed.

Example ex_chunks :
  splitter_split_text 10 3 (lit "aaa bbb ccc ddd eee")
  = [lit "aaa bbb"; lit "ccc ddd"; lit "eee"]
  /\ splitter_split_text 10 4 (lit "ab cd ef gh ij kl mn")
     = [lit "ab cd ef"; lit "ef gh ij"; lit "ij kl mn"]
  /\ splitter_split_text 4 1 (lit "abcdefghij")
     = [lit "abcd"; lit "defg"; lit "ghij"].
Proof. vm_compute. repeat split. Qed.

Example ex_split_text :
  split_text (lit " Hello world. ") = OK [lit "Hello world."]
  /\ split_text (lit " ") = Raise empty_text_error.
Proof. vm_compute. repeat split. Qed.

Example ex_argparse_numbers :
  argparse_parse_args [lit "-1" ++ NL] = OK (lit "-1" ++ NL)
  /\ argparse_parse_args [[45; 1633]%N] = OK [45; 1633]%N
  /\ argparse_parse_args [lit "-1" ++ NL ++ NL] = Raise (SystemExit 2)
  /\ argparse_parse_args [lit "-1."] = Raise (SystemExit 2)
  /\ argparse_parse_args [lit "-.5"] = OK (lit "-.5").
Proof. vm_compute. repeat split. Qed.

(** * Properties *)

(** Boolean tests on code points, turned into arithmetic. *)
Ltac unbool :=
  repeat match goal with
    | H : (_ || _) = true |- _ => apply orb_true_iff in H as [H|H]
    | H : (_ && _) = true |- _ => apply andb_true_iff in H as [? ?]
    | H : N.leb _ _ = true |- _ => apply N.leb_le in H
    | H : N.eqb _ _ = true |- _ => apply N.eqb_eq in H
    | H : N.ltb _ _ = true |- _ => apply N.ltb_lt in H
    end.

(** Case analysis on the condition of the conditional in the goal. *)
Ltac case_if H :=
  match goal with
  | |- context [if ?c then _ else _] => destruct c eqn:H
  end.

(** ** Lists of characters *)

Lemma Forall_split_go (P : N -> Prop) sep s : forall skip cur,
  Forall P cur -> Forall P s -> Forall (Forall P) (split_go sep skip cur s).
Proof.
  induction s as [|c s IH]; intros skip cur Hcur Hs; simpl.
  - repeat constructor. by apply Forall_rev.
  - inversion_clear Hs as [|? ? Hc Hs'].
    destruct skip as [|k]; [destruct (starts_with sep (c :: s))|].
    + constructor; [by apply Forall_rev | by apply IH].
    + apply IH; [by constructor | done].
    + by apply IH.
Qed.

Lemma Forall_split (P : N -> Prop) sep s :
  Forall P s -> Forall (Forall P) (split sep s).
Proof. intros. by apply Forall_split_go. Qed.

Lemma Forall_join (P : N -> Prop) sep l :
  Forall P sep -> Forall (Forall P) l -> Forall P (join sep l).
Proof.
  intros Hsep. induction 1 as [|x l Hx Hl IH]; simpl; [constructor|].
  destruct l; [done|].
  apply Forall_app; split; [done|]. apply Forall_app; split; done.
Qed.

Lemma Forall_list_filter {A} (P : A -> Prop) f (l : list A) :
  Forall P l -> Forall P (List.filter f l).
Proof.
  induction 1 as [|x l Hx Hl IH]; simpl; [constructor|].
  destruct (f x); [by constructor | done].
Qed.

(** The last occurrence of [x] determines both sides of it. *)
Lemma app_cons_unique {A} (x : A) l1 : forall l2 r1 r2,
  l1 ++ x :: r1 = l2 ++ x :: r2 -> x ∉ r1 -> x ∉ r2 ->
  l1 = l2 /\ r1 = r2.
Proof.
  induction l1 as [|a l1 IH]; intros [|b l2] r1 r2 E H1 H2; simpl in E.
  - by inversion E.
  - inversion E; subst. exfalso. apply H1, elem_of_app. right. left.
  - inversion E; subst. exfalso. apply H2, elem_of_app. right. left.
  - inversion E; subst. by destruct (IH l2 r1 r2) as [-> ->].
Qed.

(** ** Decimal numerals *)

Lemma digits_inj d1 : forall d2, digits d1 = digits d2 -> d1 = d2.
Proof.
  induction d1; intros d2 E; destruct d2; simpl in E;
    try discriminate; try reflexivity;
    f_equal; apply IHd1; by inversion E.
Qed.

Lemma digits_are_digits d : Forall (fun c => is_digit c = true) (digits d).
Proof. induction d; simpl; constructor; done. Qed.

Lemma str_int_inj z1 z2 : str_int z1 = str_int z2 -> z1 = z2.
Proof.
  unfold str_int. intros E.
  rewrite <- (DecimalZ.of_to z1), <- (DecimalZ.of_to z2).
  assert (Hd : forall d d', digits d <> 45%N :: digits d').
  { intros d d' E'. pose proof (digits_are_digits d) as Hall.
    rewrite E' in Hall. by inversion Hall. }
  destruct (Z.to_int z1) as [d1|d1], (Z.to_int z2) as [d2|d2].
  - by rewrite (digits_inj _ _ E).
  - by destruct (Hd _ _ E).
  - symmetry in E. by destruct (Hd _ _ E).
  - inversion E as [E']. by rewrite (digits_inj _ _ E').
Qed.

Lemma str_int_nonneg z :
  0 <= z -> Forall (fun c => is_digit c = true) (str_int z).
Proof.
  intros Hz. unfold str_int.
  destruct z as [|p|p]; simpl; [repeat constructor | apply digits_are_digits | lia].
Qed.

Lemma str_int_no_underscore z : 95%N ∉ str_int z.
Proof.
  unfold str_int.
  assert (H : forall d, 95%N ∉ digits d).
  { intros d Hin. pose proof (digits_are_digits d) as Hall.
    rewrite Forall_forall in Hall. by apply Hall in Hin. }
  destruct (Z.to_int z); [apply H|].
  intros Hin. apply elem_of_cons in Hin as [?|Hin]; [done | by apply H in Hin].
Qed.

(** ** Vector identifiers *)

Lemma id_char_ascii c : id_char c = true -> (c < 128)%N.
Proof. unfold id_char, isalnum. intros H. unbool; lia. Qed.

Lemma clean_name_chars nfd file_path :
  Forall (fun c => id_char c = true) (clean_name nfd file_path).
Proof.
  unfold clean_name, collapse_underscores.
  apply Forall_join; [by repeat constructor|].
  apply Forall_list_filter, Forall_split.
  unfold underscore_non_alnum. apply Forall_map, Forall_forall.
  intros c _. unfold id_char. destruct (isalnum c) eqn:E; [by rewrite E | done].
Qed.

Lemma generate_vector_id_chars nfd file_path i :
  0 <= i ->
  Forall (fun c => id_char c = true) (generate_vector_id nfd file_path i).
Proof.
  intros Hi. unfold generate_vector_id.
  apply Forall_app; split; [apply clean_name_chars|].
  apply Forall_app; split; [by repeat constructor|].
  eapply Forall_impl; [by apply str_int_nonneg|].
  intros c Hc. unfold id_char, isalnum. unfold is_digit in Hc. by rewrite Hc.
Qed.

(** Equal IDs come from equal cleaned names and equal indices. *)
Lemma generate_vector_id_inv nfd p1 p2 i1 i2 :
  generate_vector_id nfd p1 i1 = generate_vector_id nfd p2 i2 ->
  clean_name nfd p1 = clean_name nfd p2 /\ i1 = i2.
Proof.
  unfold generate_vector_id. intros E.
  change (lit "_chunk_") with (lit "_chunk" ++ [95%N]) in E.
  rewrite <- !(app_assoc (lit "_chunk")), !app_assoc in E.
  simpl in E.
  rewrite <- !app_assoc in E.
  change (?a ++ [95%N] ++ ?b) with (a ++ 95%N :: b) in E.
  rewrite !(app_assoc (clean_name _ _)) in E.
  apply app_cons_unique in E as [E1 E2]; try apply str_int_no_underscore.
  split; [by apply app_inv_tail in E1 | by apply str_int_inj].
Qed.

Lemma resume_stem_eq : stem (Path resume_docx) = resume_stem.
Proof. vm_compute. reflexivity. Qed.

(** C1. For every source file name and every chunk index (indices are
    counted from 0), the vector ID consists of characters of
    [A-Za-z0-9_] only, is a function of the pair (the same pair gives
    the same ID), and differs for two distinct indices of one source.
    For "Résumé Final.docx", given that normalisation decomposes
    each accented e of the stem into e and the combining acute, the IDs
    of chunks 0 and 1 are "Resume_Final_chunk_0" and
    "Resume_Final_chunk_1": ASCII, with the common prefix "Resume_Final",
    differing in the index suffix only. *)
Theorem generate_vector_id_sound (nfd : str -> str) (file_path : str)
  (i j : Z) :
  0 <= i ->
  Forall (fun c => id_char c = true) (generate_vector_id nfd file_path i)
  /\ (forall file_path' i', file_path' = file_path -> i' = i ->
        generate_vector_id nfd file_path' i'
        = generate_vector_id nfd file_path i)
  /\ (i <> j ->
        generate_vector_id nfd file_path i
        <> generate_vector_id nfd file_path j)
  /\ (nfd resume_stem = resume_decomposed ->
        generate_vector_id nfd resume_docx 0
        = lit "Resume_Final" ++ lit "_chunk_0"
        /\ generate_vector_id nfd resume_docx 1
           = lit "Resume_Final" ++ lit "_chunk_1").
Proof.
  intros Hi. split; [by apply generate_vector_id_chars|].
  split; [by intros ? ? -> ->|].
  split.
  - intros Hij E. by apply generate_vector_id_inv in E as [_ E].
  - intros Hnfd. unfold generate_vector_id, clean_name.
    rewrite resume_stem_eq, Hnfd. vm_compute. done.
Qed.

Lemma generate_vector_id_sound_witness :
  Forall (fun c => id_char c = true)
    (generate_vector_id nfd_latin1 resume_docx 0)
  /\ generate_vector_id nfd_latin1 resume_docx 0
     <> generate_vector_id nfd_latin1 resume_docx 1
  /\ generate_vector_id nfd_latin1 resume_docx 0
     = lit "Resume_Final" ++ lit "_chunk_0"
  /\ generate_vector_id nfd_latin1 resume_docx 1
     = lit "Resume_Final" ++ lit "_chunk_1".
Proof.
  destruct (generate_vector_id_sound nfd_latin1 resume_docx 0 1)
    as (Hchars & _ & Hne & Hex); [lia|].
  split; [exact Hchars|]. split; [apply Hne; lia|].
  apply Hex. reflexivity.
Defined.

(** C2. The claim holds of what [generate_vector_id] documents (a
    unique vector ID) but not of what it computes: the two documents
    "a b.docx" and "a_b.docx" of one directory both get the ID
    "a_b_chunk_0" for chunk 0, so the mapping from (source, index) to ID
    is not injective and the second upsert overwrites the first. *)
Theorem vector_id_collision :
  lit "a b.docx" <> lit "a_b.docx"
  /\ generate_vector_id nfd_latin1 (lit "a b.docx") 0 = lit "a_b_chunk_0"
  /\ generate_vector_id nfd_latin1 (lit "a_b.docx") 0 = lit "a_b_chunk_0"
  /\ ~ (forall p1 p2 i1 i2, (p1, i1) <> (p2, i2) ->
          generate_vector_id nfd_latin1 p1 i1
          <> generate_vector_id nfd_latin1 p2 i2).
Proof.
  split; [discriminate|]. split; [vm_compute; reflexivity|].
  split; [vm_compute; reflexivity|].
  intros H. apply (H (lit "a b.docx") (lit "a_b.docx") 0 0); [discriminate|].
  vm_compute. reflexivity.
Qed.

(** Which pairs collide: two (source, index) pairs get the same ID
    exactly when their indices are equal and their cleaned base names
    coincide. *)
Lemma generate_vector_id_injective (nfd : str -> str) (p1 p2 : str)
  (i1 i2 : Z) :
  generate_vector_id nfd p1 i1 = generate_vector_id nfd p2 i2
  <-> clean_name nfd p1 = clean_name nfd p2 /\ i1 = i2.
Proof.
  split; [apply generate_vector_id_inv|].
  intros [E ->]. unfold generate_vector_id. by rewrite E.
Qed.

(** C7, as stated, fails: for the empty source name the derivation
    returns the ID "_chunk_0"; it does not fail. *)
Lemma empty_source_name_accepted :
  call_generate_vector_id nfd_latin1 [] 0 = OK (lit "_chunk_0")
  /\ ~ (exists e, call_generate_vector_id nfd_latin1 [] 0 = Raise e).
Proof. split; [vm_compute; reflexivity | intros [e He]; discriminate]. Qed.

(** C7, amended. ID derivation has no error condition at all: for every
    source name, empty or not, it returns an ID; for the empty source
    name (whose normal form is empty) the ID is "_chunk_<index>". *)
Theorem generate_vector_id_total (nfd : str -> str) (file_path : str)
  (chunk_index : Z) :
  (exists id, call_generate_vector_id nfd file_path chunk_index = OK id)
  /\ (nfd [] = [] ->
      call_generate_vector_id nfd [] chunk_index
      = OK (lit "_chunk_" ++ str_int chunk_index)).
Proof.
  split; [by eexists|].
  intros Hnfd. unfold call_generate_vector_id, generate_vector_id, clean_name.
  change (stem (Path [])) with (@nil N). by rewrite Hnfd.
Qed.

Lemma generate_vector_id_total_witness :
  (exists id, call_generate_vector_id nfd_latin1 (lit "report.docx") 3 = OK id)
  /\ call_generate_vector_id nfd_latin1 [] 3 = OK (lit "_chunk_3").
Proof.
  split.
  - apply (generate_vector_id_total nfd_latin1 (lit "report.docx") 3).
  - apply (generate_vector_id_total nfd_latin1 [] 3). reflexivity.
Defined.

Lemma elem_of_rev (c : N) (l : str) : c ∈ rev l <-> c ∈ l.
Proof. rewrite !list_elem_of_In. symmetry. apply in_rev. Qed.

Lemma split_go_free c s : forall cur,
  c ∉ cur -> Forall (fun x => c ∉ x) (split_go [c] 0 cur s).
Proof.
  induction s as [|a s IH]; intros cur Hcur; cbn [split_go].
  - repeat constructor. by rewrite elem_of_rev.
  - cbn [starts_with]. destruct (N.eqb_spec c a) as [->|Hne]; simpl.
    + constructor; [by rewrite elem_of_rev|]. apply IH, not_elem_of_nil.
    + apply IH. by apply not_elem_of_cons.
Qed.

(** The base name of a path holds no directory separator. *)
Lemma name_no_slash p : 47%N ∉ name (Path p).
Proof.
  unfold name, Path. cbn [parts].
  assert (H : Forall (fun x => 47%N ∉ x)
                (List.filter is_component (split (lit "/") p))).
  { apply Forall_list_filter, (split_go_free 47%N), not_elem_of_nil. }
  destruct (last _) as [x|] eqn:E; simpl; [|apply not_elem_of_nil].
  apply last_Some_elem_of in E. rewrite Forall_forall in H. by apply H.
Qed.

(** C8. The metadata of a chunk is a dictionary with exactly the keys
    text, source, file_path, chunk_index, chunk_length, timestamp and
    document_type; text is the chunk text, chunk_length its number of
    characters, chunk_index the given index, source the base name of the
    file (the last component of the path, free of separators); the
    timestamp is present and is whatever the clock reads at the call. *)
Theorem create_metadata_shape (now_isoformat : Z -> str)
  (text_chunk file_path : str) (chunk_index : Z) :
  let metadata :=
    create_metadata now_isoformat text_chunk file_path chunk_index in
  dom metadata = metadata_keys
  /\ metadata !! "text"%string = Some (PyStr text_chunk)
  /\ metadata !! "chunk_length"%string
     = Some (PyInt (Z.of_nat (length text_chunk)))
  /\ metadata !! "chunk_index"%string = Some (PyInt chunk_index)
  /\ metadata !! "source"%string = Some (PyStr (name (Path file_path)))
  /\ (47%N ∉ name (Path file_path))
  /\ metadata !! "file_path"%string
     = Some (PyStr (path_str (Path file_path)))
  /\ metadata !! "document_type"%string = Some (PyStr (lit "word_document"))
  /\ metadata !! "timestamp"%string
     = Some (PyStr (now_isoformat chunk_index)).
Proof.
  simpl. unfold create_metadata, metadata_keys.
  split; [rewrite dom_list_to_map_L; simpl; set_solver|].
  repeat split; try reflexivity. apply name_no_slash.
Qed.

(** ** Trimming *)

Lemma lstrip_blank s : blank s = true -> lstrip s = [].
Proof.
  induction s as [|c s IH]; simpl; [done|].
  intros H. apply andb_true_iff in H as [-> H]. by apply IH.
Qed.

Lemma lstrip_ink s : blank s = false -> blank (lstrip s) = false.
Proof.
  induction s as [|c s IH]; simpl; [done|].
  destruct (isspace c) eqn:E; simpl; [done|]. by rewrite E.
Qed.

Lemma blank_rev s : blank (rev s) = blank s.
Proof.
  unfold blank. induction s as [|c s IH]; simpl; [done|].
  rewrite forallb_app, IH. simpl. rewrite andb_true_r. apply andb_comm.
Qed.

Lemma strip_blank s : blank s = true -> strip s = [].
Proof. intros H. unfold strip. by rewrite (lstrip_blank s H). Qed.

Lemma strip_ink s : blank s = false -> blank (strip s) = false.
Proof.
  intros H. unfold strip, rstrip.
  rewrite blank_rev. apply lstrip_ink. rewrite blank_rev. by apply lstrip_ink.
Qed.

Lemma strip_nil_iff s : strip s = [] <-> blank s = true.
Proof.
  split; [|apply strip_blank].
  intros E. destruct (blank s) eqn:B; [done|].
  apply strip_ink in B. by rewrite E in B.
Qed.

Lemma falsy_strip s : falsy (strip s) = blank s.
Proof.
  destruct (blank s) eqn:B.
  - by rewrite (strip_blank s B).
  - apply strip_ink in B. by destruct (strip s).
Qed.

Lemma lstrip_length s : (length (lstrip s) <= length s)%nat.
Proof.
  induction s as [|c s IH]; simpl; [done|].
  destruct (isspace c); simpl; lia.
Qed.

Lemma strip_length s : (length (strip s) <= length s)%nat.
Proof.
  unfold strip, rstrip. rewrite length_rev.
  etrans; [apply lstrip_length|]. rewrite length_rev. apply lstrip_length.
Qed.

Lemma strip_fits n s : fits n s -> fits n (strip s).
Proof. unfold fits, len. pose proof (strip_length s). lia. Qed.

(** ** The size bound of the windows *)

Section ChunkerBound.
Variables chunk_size chunk_overlap : Z.
Hypothesis size_positive : 1 <= chunk_size.

Local Abbreviation pop_front := (pop_front chunk_size chunk_overlap).
Local Abbreviation merge_go := (merge_go chunk_size chunk_overlap).
Local Abbreviation process := (process chunk_size chunk_overlap).
Local Abbreviation split_rec := (split_rec chunk_size chunk_overlap).

Lemma len_concat_snoc (l : list str) d :
  len (concat (l ++ [d])) = len (concat l) + len d.
Proof.
  unfold len. rewrite concat_app, length_app. simpl.
  rewrite app_nil_r. lia.
Qed.

Lemma join_docs_fits current_doc :
  len (concat current_doc) <= chunk_size ->
  Forall (fits chunk_size) (join_docs current_doc).
Proof.
  intros H. unfold join_docs.
  destruct (falsy _); repeat constructor. by apply strip_fits.
Qed.

(** What [pop_front] keeps is accounted for by the running total, and
    leaves room for the next fragment unless nothing is kept. *)
Lemma pop_front_spec current_doc : forall total _len kept total',
  total = len (concat current_doc) ->
  pop_front current_doc total _len = (kept, total') ->
  total' = len (concat kept)
  /\ (total' + _len <= chunk_size \/ total' = 0).
Proof.
  induction current_doc as [|d rest IH]; intros total _len kept total' Ht E;
    simpl in E.
  - inversion E; subst. split; [done | by right].
  - destruct ((chunk_overlap <? total)
              || ((chunk_size <? total + _len) && (0 <? total))) eqn:C.
    + apply IH in E; [done|]. subst total. unfold len. simpl.
      rewrite length_app. lia.
    + inversion E; subst. split; [done|].
      apply orb_false_iff in C as [_ C].
      apply andb_false_iff in C as [C|C]; [left | right].
      * apply Z.ltb_ge in C. lia.
      * apply Z.ltb_ge in C. unfold len in *. lia.
Qed.

Lemma merge_go_fits splits : forall current_doc total,
  total = len (concat current_doc) ->
  total <= chunk_size ->
  Forall (fits chunk_size) splits ->
  Forall (fits chunk_size) (merge_go current_doc total splits).
Proof.
  induction splits as [|d rest IH]; intros current_doc total Ht Hle Hs;
    simpl.
  - apply join_docs_fits. by rewrite <- Ht.
  - inversion_clear Hs as [|? ? Hd Hrest]. unfold fits in Hd.
    case_if C.
    + destruct (pop_front _ _ _) as [kept total'] eqn:P.
      apply pop_front_spec in P as [Hk Hroom]; [|done].
      apply Forall_app; split; [apply join_docs_fits; by rewrite <- Ht|].
      apply IH; [by rewrite len_concat_snoc, Hk | lia | done].
    + apply IH; [by rewrite len_concat_snoc, Ht | | done].
      apply andb_false_iff in C as [C|C].
      * apply Z.ltb_ge in C. lia.
      * destruct current_doc; [|done]. subst total. unfold len at 1. simpl. lia.
Qed.

Lemma flush_fits good_splits :
  Forall (fits chunk_size) good_splits ->
  Forall (fits chunk_size) (flush chunk_size chunk_overlap good_splits).
Proof.
  intros H. unfold flush, merge_splits.
  destruct (falsy good_splits); [constructor|].
  apply merge_go_fits; [done | lia | done].
Qed.

Lemma process_fits recurse splits : forall good_splits,
  Forall (fits chunk_size) good_splits ->
  recursion_fits chunk_size recurse splits ->
  Forall (fits chunk_size) (process recurse good_splits splits).
Proof.
  induction splits as [|s rest IH]; intros good_splits Hg Hr; simpl.
  - by apply flush_fits.
  - assert (Hr' : recursion_fits chunk_size recurse rest).
    { destruct recurse; [done|]. by inversion Hr. }
    destruct (len s <=? chunk_size) eqn:C.
    + apply IH; [|done]. apply Forall_app; split; [done|].
      repeat constructor. apply Z.leb_le in C. by unfold fits.
    + apply Forall_app; split; [by apply flush_fits|].
      apply Forall_app; split; [|apply IH; [constructor | done]].
      destruct recurse as [f|]; [apply Hr|].
      inversion_clear Hr as [|? ? Hs _]. by repeat constructor.
Qed.

Lemma hard_cut_short text :
  Forall (fits chunk_size) (fragments [] text).
Proof.
  unfold fragments. apply Forall_list_filter, Forall_map, Forall_forall.
  intros c _. unfold fits, len. simpl. lia.
Qed.

(** Every window is within the bound, whatever the separators, as
    long as the last one is the empty separator. *)
Lemma split_rec_fits rest : forall sep text,
  last (sep :: rest) = Some [] ->
  Forall (fits chunk_size) (split_rec sep rest text).
Proof.
  induction rest as [|sep' rest' IH]; intros sep text Hlast; simpl.
  - simpl in Hlast. inversion Hlast; subst.
    apply process_fits; [constructor | apply hard_cut_short].
  - destruct sep as [|c sep]; simpl.
    + apply process_fits; [constructor | apply hard_cut_short].
    + destruct (occurs (c :: sep) text).
      * apply process_fits; [constructor|]. intros s. by apply IH.
      * by apply IH.
Qed.
End ChunkerBound.

(** ** Nothing written is lost by the chunker *)

Lemma blank_app a b : blank (a ++ b) = blank a && blank b.
Proof. apply forallb_app. Qed.

Lemma inked_concat (l : list str) : inked (concat l) -> Exists inked l.
Proof.
  unfold inked. induction l as [|x l IH]; simpl; [done|].
  rewrite blank_app. intros H. apply andb_false_iff in H as [H|H].
  - by left.
  - right. by apply IH.
Qed.

Lemma concat_inked (l : list str) : Exists inked l -> inked (concat l).
Proof.
  unfold inked. induction 1 as [x l H|x l H IH]; simpl; rewrite blank_app.
  - by rewrite H.
  - rewrite IH. apply andb_false_r.
Qed.

Lemma concat_list_filter (l : list str) :
  concat (List.filter (fun f => negb (falsy f)) l) = concat l.
Proof.
  induction l as [|x l IH]; simpl; [done|].
  destruct x; simpl; by rewrite IH.
Qed.

Lemma concat_cut_go sep s : forall skip cur,
  concat (cut_go sep skip cur s) = rev cur ++ s.
Proof.
  induction s as [|c s IH]; intros skip cur; simpl.
  - done.
  - destruct skip as [|k]; [case_if M|]; simpl; rewrite IH; simpl;
      by rewrite <- ?app_assoc.
Qed.

(** The fragments of a text concatenate to the text. *)
Lemma concat_fragments sep text : concat (fragments sep text) = text.
Proof.
  unfold fragments. rewrite concat_list_filter. destruct sep.
  - induction text as [|c text IH]; simpl; by rewrite ?IH.
  - apply concat_cut_go.
Qed.

Lemma fragments_inked sep text :
  inked text -> Exists inked (fragments sep text).
Proof. intros H. apply inked_concat. by rewrite concat_fragments. Qed.

Section ChunkerCoverage.
Variables chunk_size chunk_overlap : Z.

Lemma join_docs_inked current_doc :
  Exists inked current_doc -> Exists inked (join_docs current_doc).
Proof.
  intros H. apply concat_inked in H. unfold join_docs.
  rewrite falsy_strip, H. left. by apply strip_ink.
Qed.

Lemma merge_go_inked splits : forall current_doc total,
  Exists inked current_doc \/ Exists inked splits ->
  Exists inked (merge_go chunk_size chunk_overlap current_doc total splits).
Proof.
  induction splits as [|d rest IH]; intros current_doc total H; simpl.
  - destruct H as [H|H]; [by apply join_docs_inked | by inversion H].
  - assert (Hnext : forall kept,
      Exists inked current_doc \/ Exists inked (kept ++ [d])
      \/ Exists inked rest).
    { intros kept. destruct H as [H|H]; [by left|]. right.
      inversion_clear H; [left | by right].
      apply Exists_app. right. by left. }
    case_if C.
    + destruct (pop_front _ _ _ _ _) as [kept total'].
      apply Exists_app.
      destruct (Hnext kept) as [Hc|Hr]; [left; by apply join_docs_inked|].
      right. by apply IH.
    + apply IH. destruct H as [H|H].
      * left. apply Exists_app. by left.
      * inversion_clear H; [left | by right].
        apply Exists_app. right. by left.
Qed.

Lemma flush_inked good_splits :
  Exists inked good_splits ->
  Exists inked (flush chunk_size chunk_overlap good_splits).
Proof.
  intros H. unfold flush, merge_splits.
  destruct good_splits; [by inversion H|]. simpl falsy. cbv iota.
  apply merge_go_inked. by right.
Qed.

Lemma process_inked recurse splits : forall good_splits,
  match recurse with
  | None => True
  | Some split_further => forall s, inked s -> Exists inked (split_further s)
  end ->
  Exists inked good_splits \/ Exists inked splits ->
  Exists inked (process chunk_size chunk_overlap recurse good_splits splits).
Proof.
  induction splits as [|s rest IH]; intros good_splits Hr H; simpl.
  - destruct H as [H|H]; [by apply flush_inked | by inversion H].
  - case_if C.
    + apply IH; [done|]. destruct H as [H|H].
      * left. apply Exists_app. by left.
      * inversion_clear H; [left | by right].
        apply Exists_app. right. by left.
    + rewrite !Exists_app. destruct H as [H|H]; [left; by apply flush_inked|].
      right. inversion_clear H as [? ? Hs|? ? Hrest].
      * left. destruct recurse as [f|]; [by apply Hr | by left].
      * right. apply IH; [done | by right].
Qed.

(** A text with ink yields a window with ink. *)
Lemma split_rec_inked rest : forall sep text,
  inked text ->
  Exists inked (split_rec chunk_size chunk_overlap sep rest text).
Proof.
  induction rest as [|sep' rest' IH]; intros sep text H; simpl.
  - apply process_inked; [done|]. right. by apply fragments_inked.
  - destruct (falsy sep).
    + apply process_inked; [done|]. right. by apply fragments_inked.
    + destruct (occurs sep text).
      * apply process_inked; [|right; by apply fragments_inked].
        intros s Hs. by apply IH.
      * by apply IH.
Qed.
End ChunkerCoverage.

(** ** split_text *)

Lemma falsy_blank (s : str) : falsy s = true -> blank s = true.
Proof. by destruct s. Qed.

Lemma split_text_guard text :
  falsy text || falsy (strip text) = blank text.
Proof.
  rewrite falsy_strip. destruct (falsy text) eqn:F; [|done].
  by rewrite (falsy_blank _ F).
Qed.

(** A text that is empty after trimming is refused by the guard. *)
Lemma split_text_blank text :
  blank text = true -> split_text text = Raise empty_text_error.
Proof. intros B. unfold split_text. by rewrite split_text_guard, B. Qed.

Lemma separators_end_with_cut : last separators = Some [].
Proof. reflexivity. Qed.

Lemma cleaned_chunks_fit n (chunks : list str) :
  Forall (fits n) chunks ->
  Forall (fits n)
    (map strip (List.filter (fun chunk => negb (falsy (strip chunk))) chunks)).
Proof.
  intros H. apply Forall_map, Forall_list_filter.
  eapply Forall_impl; [exact H|]. intros c Hc. by apply strip_fits.
Qed.

Lemma cleaned_chunks_inked (chunks : list str) :
  Exists inked chunks ->
  map strip (List.filter (fun chunk => negb (falsy (strip chunk))) chunks)
  <> [].
Proof.
  induction 1 as [c l Hc|c l _ IH]; simpl.
  - rewrite falsy_strip, Hc. simpl. discriminate.
  - destruct (negb _); [discriminate | done].
Qed.

(** Any other text is split, into at least one chunk, none longer than
    [CHUNK_SIZE]. *)
Lemma split_text_inked text :
  inked text ->
  exists chunks,
    split_text text = OK chunks /\ chunks <> []
    /\ Forall (fits CHUNK_SIZE) chunks.
Proof.
  intros B. unfold split_text. rewrite split_text_guard, B.
  set (chunks := splitter_split_text CHUNK_SIZE CHUNK_OVERLAP text).
  assert (Hink : Exists inked chunks) by by apply split_rec_inked.
  assert (Hfit : Forall (fits CHUNK_SIZE) chunks).
  { apply split_rec_fits; [done | apply separators_end_with_cut]. }
  apply cleaned_chunks_inked in Hink. apply (cleaned_chunks_fit CHUNK_SIZE) in Hfit.
  destruct (map strip _) as [|c l] eqn:E; [done|].
  exists (c :: l). by repeat split.
Qed.

(** C3. For every text that is not empty after trimming, [split_text]
    returns chunks, and every chunk it returns has at most [CHUNK_SIZE]
    characters (the configured overlap, 200, is below the maximal size,
    1000). *)
Theorem split_text_size_bound (text : str) :
  strip text <> [] ->
  0 <= CHUNK_OVERLAP < CHUNK_SIZE
  /\ exists chunks,
       split_text text = OK chunks
       /\ Forall (fun chunk => len chunk <= CHUNK_SIZE) chunks.
Proof.
  intros H. split; [done|].
  destruct (split_text_inked text) as (chunks & E & _ & Hfit).
  { destruct (blank text) eqn:B; [|done]. by apply strip_nil_iff in B. }
  by exists chunks.
Qed.

Lemma split_text_size_bound_witness :
  exists chunks,
    split_text (lit "  Hello world. ") = OK chunks
    /\ Forall (fun chunk => len chunk <= CHUNK_SIZE) chunks.
Proof.
  apply (split_text_size_bound (lit "  Hello world. ")).
  vm_compute. discriminate.
Defined.

(** C4, as stated, fails: the empty string and the whitespace-only
    string "   " are refused with one and the same error. *)
Lemma split_text_same_error :
  ~ (exists e1 e2,
       split_text [] = Raise e1 /\ split_text (lit "   ") = Raise e2
       /\ e1 <> e2).
Proof.
  intros (e1 & e2 & E1 & E2 & Hne). apply Hne.
  rewrite split_text_blank in E1, E2 by done. congruence.
Qed.

(** C4, amended. [split_text] refuses every text that is empty after
    trimming, the empty string and whitespace-only strings such as "   "
    alike, with the same invalid-input error, "Document text cannot be
    empty"; such a text never reaches the chunker, so it does not
    produce the no-chunks error. *)
Theorem split_text_rejects_blank (text : str) :
  strip text = [] ->
  split_text text = Raise empty_text_error
  /\ split_text text = split_text []
  /\ split_text text
     <> Raise (Exception_ (lit "Error splitting text: "
                           ++ exn_str no_chunks_error)).
Proof.
  intros H. apply strip_nil_iff in H.
  rewrite !split_text_blank by done. by repeat split.
Qed.

Lemma split_text_rejects_blank_witness :
  split_text (lit "   ") = Raise empty_text_error
  /\ split_text (lit "   ") = split_text [].
Proof.
  destruct (split_text_rejects_blank (lit "   ")) as (H1 & H2 & _);
    [reflexivity | by split].
Defined.

(** C9. A text with at least one character that is not whitespace is
    split into a non-empty list of chunks; whenever [split_text] fails,
    the text is empty after trimming and the error is the one of the
    guard, so the "No valid chunks created" branch is never taken. *)
Theorem split_text_nonempty (text : str) :
  (Exists (fun c => isspace c = false) text ->
   exists chunks, split_text text = OK chunks /\ chunks <> [])
  /\ (forall e, split_text text = Raise e ->
        strip text = [] /\ e = empty_text_error).
Proof.
  split.
  - intros H. destruct (split_text_inked text) as (chunks & E & Hne & _).
    + unfold inked, blank. apply not_true_is_false. intros B.
      rewrite forallb_forall in B. apply Exists_exists in H as (c & Hin & Hc).
      apply list_elem_of_In, B in Hin. congruence.
    + by exists chunks.
  - intros e E. destruct (blank text) eqn:B.
    + rewrite split_text_blank in E by done.
      split; [by apply strip_nil_iff | congruence].
    + destruct (split_text_inked text B) as (chunks & E' & _). congruence.
Qed.

Lemma split_text_nonempty_witness :
  (exists chunks, split_text (lit " a b ") = OK chunks /\ chunks <> [])
  /\ strip (lit "   ") = [] /\ empty_text_error = empty_text_error.
Proof.
  split.
  - apply (proj1 (split_text_nonempty (lit " a b "))).
    apply Exists_cons_tl, Exists_cons_hd. reflexivity.
  - apply (proj2 (split_text_nonempty (lit "   ")) empty_text_error).
    reflexivity.
Defined.

(** ** Trimmed strings *)

Lemma lstrip_suffix s : exists ws, s = ws ++ lstrip s.
Proof.
  induction s as [|c s [ws IH]]; simpl; [by exists []|].
  destruct (isspace c); [|by exists []].
  exists (c :: ws). simpl. by rewrite <- IH.
Qed.

Lemma rstrip_prefix s : exists ws, s = rstrip s ++ ws.
Proof.
  unfold rstrip. destruct (lstrip_suffix (rev s)) as [ws E].
  exists (rev ws). rewrite <- rev_app_distr, <- E. by rewrite rev_involutive.
Qed.

Lemma lstrip_head_ok s : head_ok (lstrip s).
Proof.
  induction s as [|c s IH]; simpl; [done|].
  destruct (isspace c) eqn:E; [done | by simpl].
Qed.

Lemma lstrip_id s : head_ok s -> lstrip s = s.
Proof. destruct s as [|c s]; simpl; [done|]. by intros ->. Qed.

Lemma head_ok_prefix a w : head_ok (a ++ w) -> head_ok a.
Proof. by destruct a. Qed.

Lemma strip_head_ok s : head_ok (strip s).
Proof.
  unfold strip. destruct (rstrip_prefix (lstrip s)) as [ws E].
  apply (head_ok_prefix _ ws). rewrite <- E. apply lstrip_head_ok.
Qed.

(** Trimming a trimmed string changes nothing. *)
Lemma strip_idem s : strip (strip s) = strip s.
Proof.
  unfold strip at 1. rewrite (lstrip_id _ (strip_head_ok s)).
  unfold strip, rstrip. rewrite rev_involutive.
  by rewrite (lstrip_id _ (lstrip_head_ok _)).
Qed.

Lemma strip_sublist c s : c ∉ s -> c ∉ strip s.
Proof.
  intros H Hin. apply H. unfold strip in Hin.
  destruct (lstrip_suffix s) as [w1 E1].
  destruct (rstrip_prefix (lstrip s)) as [w2 E2].
  rewrite E1, E2. set_solver.
Qed.

(** ** Lines *)

Lemma split_go_skip_over c x : forall cur rest,
  c ∉ x ->
  split_go [c] 0 cur (x ++ rest) = split_go [c] 0 (rev x ++ cur) rest.
Proof.
  induction x as [|a x IH]; intros cur rest Hc; simpl; [done|].
  apply not_elem_of_cons in Hc as [Hca Hcx].
  destruct (N.eqb_spec c a) as [->|_]; [done|]. simpl.
  rewrite IH by done. by rewrite <- app_assoc.
Qed.

Lemma split_go_cut c cur rest :
  split_go [c] 0 cur (c :: rest) = rev cur :: split_go [c] 0 [] rest.
Proof. simpl. by rewrite N.eqb_refl. Qed.

(** Splitting a joined list gives the list back, when the separating
    character occurs in none of its elements. *)
Lemma split_join c (l : list str) :
  l <> [] -> Forall (fun x => c ∉ x) l -> split [c] (join [c] l) = l.
Proof.
  intros Hne H. unfold split. induction H as [|x l Hx Hl IH]; [done|].
  simpl. destruct l as [|y l'].
  - rewrite <- (app_nil_r x) at 1. rewrite split_go_skip_over by done.
    simpl. by rewrite app_nil_r, rev_involutive.
  - rewrite split_go_skip_over by done. simpl app at 1.
    rewrite split_go_cut, app_nil_r, rev_involutive. f_equal. by apply IH.
Qed.

Lemma occurs_skip_over c x : forall rest,
  c ∉ x -> occurs [c; c] (x ++ rest) = occurs [c; c] rest.
Proof.
  induction x as [|a x IH]; intros rest Hc; [done|].
  apply not_elem_of_cons in Hc as [Hca Hcx]. simpl.
  destruct (N.eqb_spec c a) as [->|_]; [done|]. simpl. by apply IH.
Qed.

(** No two adjacent separating characters in a joined list whose
    elements are non-empty and free of that character. *)
Lemma occurs_join c (l : list str) :
  Forall (fun x => (c ∉ x) /\ x <> []) l -> occurs [c; c] (join [c] l) = false.
Proof.
  induction 1 as [|x l [Hx _] Hl IH]; [done|]. simpl.
  destruct l as [|y l'].
  - rewrite <- (app_nil_r x). by rewrite occurs_skip_over.
  - rewrite occurs_skip_over by done.
    inversion_clear Hl as [|? ? [Hy Hyne] _].
    change ([c] ++ join [c] (y :: l')) with (c :: join [c] (y :: l')).
    cbn [occurs]. rewrite IH, orb_false_r.
    destruct y as [|a y]; [done|].
    apply not_elem_of_cons in Hy as [Hca _].
    assert (E : exists t, join [c] ((a :: y) :: l') = a :: t).
    { simpl. destruct l'; by eexists. }
    destruct E as [t ->]. simpl. rewrite N.eqb_refl.
    by destruct (N.eqb_spec c a).
Qed.

(** ** read_document *)

Lemma extract_text_spec paragraphs :
  Forall (fun t => strip t = t /\ t <> []) (extract_text paragraphs).
Proof.
  unfold extract_text. induction paragraphs as [|p ps IH]; simpl; [constructor|].
  destruct (strip p) eqn:E; simpl; [done|].
  constructor; [|done]. split; [|done]. rewrite <- E. apply strip_idem.
Qed.

Lemma extract_text_free c paragraphs :
  Forall (fun p => c ∉ p) paragraphs ->
  Forall (fun t => c ∉ t) (extract_text paragraphs).
Proof.
  intros H. unfold extract_text. apply Forall_list_filter, Forall_map.
  eapply Forall_impl; [exact H|]. intros p. apply strip_sublist.
Qed.

(** What a successful [read_document] returns. *)
Lemma read_document_ok path_exists docx_paragraphs file_path text :
  read_document path_exists docx_paragraphs file_path = OK text ->
  exists paragraphs,
    docx_paragraphs (path_str (Path file_path)) = OK paragraphs
    /\ text = join NL (extract_text paragraphs)
    /\ strip text <> [].
Proof.
  unfold read_document. destruct (negb _); [done|].
  destruct (docx_paragraphs _) as [paragraphs|e]; simpl.
  - destruct (falsy (strip _)) eqn:F; simpl; [done|].
    intros [= <-]. exists paragraphs. repeat split. intros E. by rewrite E in F.
  - destruct (is_Exception e); [by destruct e | done].
Qed.

(** C10, as stated, fails: a paragraph whose text holds two line
    breaks in a row, "a\n\nb", is returned as it is, with the two
    consecutive newlines and with an empty line. *)
Lemma read_document_inner_newlines :
  ~ (forall path_exists docx_paragraphs file_path text,
       read_document path_exists docx_paragraphs file_path = OK text ->
       strip text <> []
       /\ Forall (fun line => strip line = line) (lines text)
       /\ occurs (NL ++ NL) text = false).
Proof.
  intros H.
  destruct (H every_path
              (paragraphs_of [lit "a" ++ NL ++ NL ++ lit "b"])
              (lit "notes.docx")
              (lit "a" ++ NL ++ NL ++ lit "b")) as (_ & _ & Hnn);
    [reflexivity | discriminate].
Qed.

(** C10, amended. Every string returned by [read_document] is non-empty
    after trimming and is the trimmed, non-empty paragraph texts joined
    by newlines.  When no paragraph text contains a newline of its own,
    its lines are these paragraph texts, every line is trimmed and
    non-empty, and it contains no two consecutive newlines, so the
    separator "\n\n" does not occur in what the chunker receives. *)
Theorem read_document_lines (path_exists : str -> bool)
  (docx_paragraphs : str -> result (list str)) (file_path text : str) :
  read_document path_exists docx_paragraphs file_path = OK text ->
  strip text <> []
  /\ exists paragraphs,
       docx_paragraphs (path_str (Path file_path)) = OK paragraphs
       /\ text = join NL (extract_text paragraphs)
       /\ (Forall (fun p => 10%N ∉ p) paragraphs ->
           lines text = extract_text paragraphs
           /\ Forall (fun line => strip line = line /\ line <> [])
                (lines text)
           /\ occurs (NL ++ NL) text = false).
Proof.
  intros E. apply read_document_ok in E as (paragraphs & Hp & -> & Hne).
  split; [done|]. exists paragraphs. split; [done|]. split; [done|].
  intros Hfree.
  assert (Hne' : extract_text paragraphs <> []).
  { intros Hnil. rewrite Hnil in Hne. by apply Hne. }
  assert (Hl : lines (join NL (extract_text paragraphs))
               = extract_text paragraphs).
  { unfold lines, NL. apply split_join; [done|]. by apply extract_text_free. }
  split; [done|]. split.
  - rewrite Hl. apply extract_text_spec.
  - apply (occurs_join 10%N).
    pose proof (extract_text_spec paragraphs) as H1.
    pose proof (extract_text_free 10%N paragraphs Hfree) as H2.
    rewrite Forall_forall in H1, H2. apply Forall_forall.
    intros t Ht. split; [by apply H2 | by apply H1].
Qed.

Lemma read_document_lines_witness :
  lines (lit "Title" ++ NL ++ lit "First paragraph.")
  = [lit "Title"; lit "First paragraph."]
  /\ occurs (NL ++ NL) (lit "Title" ++ NL ++ lit "First paragraph.") = false.
Proof.
  destruct (read_document_lines every_path
              (paragraphs_of [lit " Title "; lit "  "; lit "First paragraph. "])
              (lit "notes.docx")
              (lit "Title" ++ NL ++ lit "First paragraph."))
    as (_ & paragraphs & Hp & _ & H); [reflexivity|].
  injection Hp as <-.
  destruct H as (Hl & _ & Hnn).
  - repeat constructor; intros Hin; vm_compute in Hin;
      repeat (apply elem_of_cons in Hin as [Hin|Hin]; [discriminate|]);
      by apply elem_of_nil in Hin.
  - split; [exact Hl | exact Hnn].
Defined.

(** ** The run *)

Example ex_run :
  let '(code, w) := demo_main [lit "Hello world."] exact_embeddings
                      [lit "notes.docx"] in
  code = 0
  /\ (fun '(id, _, _) => id) <$> concat (upserts _ _ w)
     = [lit "notes_chunk_0"]
  /\ is_Some (remote _ _ w !! lit "notes_chunk_0").
Proof. vm_compute. repeat split. by eexists. Qed.

Lemma argparse_scan_statuses args : forall positionals extras,
  (exists file_path, argparse_scan args positionals extras = OK file_path)
  \/ argparse_scan args positionals extras = Raise (SystemExit 0)
  \/ argparse_scan args positionals extras = Raise (SystemExit 2).
Proof.
  assert (Hfin : forall positionals extras,
    (exists file_path, finish positionals extras = OK file_path)
    \/ finish positionals extras = Raise (SystemExit 0)
    \/ finish positionals extras = Raise (SystemExit 2)).
  { intros [|p [|q l]] [|]; simpl; eauto. }
  induction args as [|a rest IH]; intros positionals extras;
    cbn [argparse_scan]; [apply Hfin|].
  case_if C; [apply Hfin|].
  destruct (classify a); eauto.
Qed.

(** The command-line parser hands over a file path or ends the process
    with status 0 (help) or 2 (usage error). *)
Lemma argparse_statuses argv :
  (exists file_path, argparse_parse_args argv = OK file_path)
  \/ argparse_parse_args argv = Raise (SystemExit 0)
  \/ argparse_parse_args argv = Raise (SystemExit 2).
Proof. apply argparse_scan_statuses. Qed.

Section Run.
Variable nfd : str -> str.
Variable now_isoformat : Z -> str.
Variable Embedding : Type.
Variable Index : Type.
Variable index_upsert :
  Index -> list (vector Embedding) -> result (option Z) * Index.
Variable path_exists : str -> bool.
Variable docx_paragraphs : str -> result (list str).
Variable embeddings_create : list str -> result (list Embedding).
Variable parse_args : list str -> result str.

Local Abbreviation world := (pinecone Embedding Index).
Local Abbreviation store_embeddings' :=
  (store_embeddings nfd now_isoformat Embedding Index index_upsert).
Local Abbreviation pipeline' :=
  (pipeline nfd now_isoformat Embedding Index index_upsert path_exists
     docx_paragraphs embeddings_create).
Local Abbreviation process_document' :=
  (process_document nfd now_isoformat Embedding Index index_upsert
     path_exists docx_paragraphs embeddings_create).
Local Abbreviation main' :=
  (main nfd now_isoformat Embedding Index index_upsert path_exists
     docx_paragraphs embeddings_create parse_args).

(** A count mismatch is refused before anything is sent to the index. *)
Lemma store_embeddings_mismatch (w : world) (embeddings : list Embedding)
  (text_chunks : list str) (file_path : str) :
  length embeddings <> length text_chunks ->
  exists msg,
    store_embeddings' w embeddings text_chunks file_path
    = (Raise (ValueError msg), w).
Proof.
  intros Hne. unfold store_embeddings.
  destruct (falsy embeddings); [by eexists|].
  destruct (falsy text_chunks); [by eexists|].
  destruct (Z.eqb_spec (len embeddings) (len text_chunks)) as [E|_].
  - unfold len in E. lia.
  - simpl. by eexists.
Qed.

Lemma process_document_spec (w : world) (file_path : str) :
  process_document' w file_path
  = (match (pipeline' w file_path).1 with
     | OK _ => OK true
     | Raise e => if is_Exception e then OK false else Raise e
     end, (pipeline' w file_path).2).
Proof.
  unfold process_document. destruct (pipeline _ _ _ _ _ _ _ _ _ _) as [[r|e] w'];
    simpl; [done|]. by destruct (is_Exception e).
Qed.

(** The exit status in terms of what the steps of [main] yield. *)
Lemma main_spec (argv : list str) (w : world) :
  (main' argv w).1
  = match parse_args argv with
    | Raise (SystemExit code) => code
    | Raise _ => 1
    | OK file_path =>
        match validate_file_path path_exists file_path with
        | Raise _ => 1
        | OK validated_path =>
            match (pipeline' w (path_str validated_path)).1 with
            | OK _ => 0
            | Raise (SystemExit code) => code
            | Raise _ => 1
            end
        end
    end.
Proof.
  unfold main, main_try, parse_arguments.
  destruct (parse_args argv) as [file_path|e]; [|by destruct e].
  assert (Hv : forall e,
    validate_file_path path_exists file_path = Raise e ->
    exists msg, e = FileNotFoundError msg \/ e = ValueError msg).
  { unfold validate_file_path. intros e.
    case_if C1; [|case_if C2]; intros E; inversion E; subst; eauto. }
  destruct (validate_file_path path_exists file_path) as [vp|e].
  - rewrite process_document_spec.
    destruct (pipeline _ _ _ _ _ _ _ _ _ _) as [[r|e] w']; simpl; [done|].
    by destruct e.
  - by destruct (Hv e eq_refl) as [msg [-> | ->]].
Qed.
(** C5. In every run in which the embedding step returns a number of
    vectors different from the number of chunks submitted, the store
    step refuses the batch with the count error (which the
    specification files under ProviderError) before anything is sent to
    the index: the index and the record of upserts are unchanged, the
    pipeline reports failure, and the process exits with status 1. *)
Theorem count_mismatch_never_stores (w : world) (file_path text : str)
  (text_chunks : list str) (embeddings : list Embedding) :
  read_document path_exists docx_paragraphs file_path = OK text ->
  split_text text = OK text_chunks ->
  generate_embeddings Embedding embeddings_create text_chunks
  = OK embeddings ->
  length embeddings <> length text_chunks ->
  (exists msg,
     store_embeddings' w embeddings text_chunks file_path
     = (Raise (ValueError msg), w))
  /\ process_document' w file_path = (OK false, w)
  /\ (forall argv file_arg validated_path,
        parse_args argv = OK file_arg ->
        validate_file_path path_exists file_arg = OK validated_path ->
        path_str validated_path = file_path ->
        main' argv w = (1, w)).
Proof.
  intros Hread Hsplit Hembed Hne.
  destruct (store_embeddings_mismatch w embeddings text_chunks file_path Hne)
    as [msg Hstore].
  assert (Hpipe : pipeline' w file_path = (Raise (ValueError msg), w)).
  { unfold pipeline. by rewrite Hread, Hsplit, Hembed. }
  assert (Hproc : process_document' w file_path = (OK false, w)).
  { rewrite process_document_spec. by rewrite Hpipe. }
  split; [by exists msg|]. split; [done|].
  intros argv file_arg validated_path Hparse Hvalid Hpath.
  unfold main, main_try, parse_arguments.
  by rewrite Hparse, Hvalid, Hpath, Hproc.
Qed.

(** C6, amended. The process exits with status 0 exactly when the
    pipeline succeeds or the process is ended with status 0 from inside
    a call (the argument parser does so for the help option).  It exits
    with status 1 when the file is missing, when it is not a Word
    document, when a pipeline step fails, and on user interrupt.  When
    the argument parser ends the process itself, as it does on bad
    command-line arguments, the exit status is the parser's, not 1. *)
Theorem main_exit_status (argv : list str) (w : world) :
  let code := (main' argv w).1 in
  (code = 0 <->
     parse_args argv = Raise (SystemExit 0)
     \/ exists file_arg validated_path,
          parse_args argv = OK file_arg
          /\ validate_file_path path_exists file_arg = OK validated_path
          /\ ((exists r, (pipeline' w (path_str validated_path)).1 = OK r)
              \/ (pipeline' w (path_str validated_path)).1
                 = Raise (SystemExit 0)))
  /\ (forall status, parse_args argv = Raise (SystemExit status) ->
        code = status)
  /\ (parse_args argv = Raise KeyboardInterrupt -> code = 1)
  /\ (forall file_arg, parse_args argv = OK file_arg ->
        (path_exists (path_str (Path file_arg)) = false -> code = 1)
        /\ (lower (suffix (Path file_arg)) ∉ [lit ".docx"; lit ".doc"] ->
            code = 1)
        /\ (forall validated_path e,
              validate_file_path path_exists file_arg = OK validated_path ->
              (pipeline' w (path_str validated_path)).1 = Raise e ->
              is_Exception e = true \/ e = KeyboardInterrupt ->
              code = 1)).
Proof.
  cbv zeta. rewrite main_spec. repeat apply conj.
  - destruct (parse_args argv) as [file_arg|e].
    + destruct (validate_file_path path_exists file_arg) as [vp|e] eqn:Hv.
      * destruct (pipeline' w (path_str vp)).1 as [r|e] eqn:Hp.
        -- intros _. right. exists file_arg, vp. rewrite Hp. eauto.
        -- intros Hc. right. exists file_arg, vp. rewrite Hp.
           split; [done|]. split; [done|]. right.
           destruct e; try discriminate. by subst.
      * intros Hc. discriminate.
    + intros Hc. left. destruct e; try discriminate. by subst.
  - intros [E | (file_arg & vp & E & Hv & [[r Hp] | Hp])];
      rewrite E; [done | |]; by rewrite Hv, Hp.
  - by intros status ->.
  - by intros ->.
  - intros file_arg ->. split; [|split].
    + intros Hmissing. unfold validate_file_path. by rewrite Hmissing.
    + intros Hsuffix. unfold validate_file_path.
      destruct (negb (path_exists _)); [done|].
      by rewrite bool_decide_eq_false_2.
    + intros vp e -> -> [He | ->]; [by destruct e | done].
Qed.
End Run.

Lemma count_mismatch_never_stores_witness :
  demo_main [lit "Hello world."] lossy_embeddings [lit "notes.docx"]
  = (1, empty_pinecone).
Proof.
  unfold demo_main.
  destruct (count_mismatch_never_stores nfd_latin1 fixed_clock Z
              memory_index memory_upsert every_path
              (paragraphs_of [lit "Hello world."]) lossy_embeddings
              argparse_parse_args empty_pinecone
              (lit "notes.docx") (lit "Hello world.")
              [lit "Hello world."] [])
    as (_ & _ & Hmain);
    [reflexivity | reflexivity | reflexivity | simpl; lia |].
  apply (Hmain [lit "notes.docx"] (lit "notes.docx")
           (Path (lit "notes.docx"))); reflexivity.
Defined.

(** C6, as stated, fails: with no argument at all, a failure, the
    process exits with status 2, and with the help option it exits with
    status 0 although no pipeline has run. *)
Lemma bad_arguments_exit_status :
  (demo_main [lit "Hello world."] exact_embeddings []).1 = 2
  /\ demo_main [lit "Hello world."] exact_embeddings [lit "--help"]
     = (0, empty_pinecone).
Proof. split; reflexivity. Qed.

Lemma main_exit_status_witness :
  (demo_main [lit "Hello world."] exact_embeddings [lit "notes.docx"]).1 = 0
  /\ (demo_main [lit "Hello world."] exact_embeddings []).1 = 2
  /\ (demo_main [lit "Hello world."] exact_embeddings [lit "notes.txt"]).1 = 1
  /\ (demo_main [lit "Hello world."] lossy_embeddings [lit "notes.docx"]).1
     = 1.
Proof.
  unfold demo_main.
  split; [|split; [|split]].
  - destruct (main_exit_status nfd_latin1 fixed_clock Z memory_index
                memory_upsert every_path (paragraphs_of [lit "Hello world."])
                exact_embeddings argparse_parse_args [lit "notes.docx"]
                empty_pinecone) as ([_ Hzero] & _).
    apply Hzero. right.
    exists (lit "notes.docx"), (Path (lit "notes.docx")).
    split; [reflexivity|]. split; [reflexivity|]. left.
    eexists. vm_compute. reflexivity.
  - destruct (main_exit_status nfd_latin1 fixed_clock Z memory_index
                memory_upsert every_path (paragraphs_of [lit "Hello world."])
                exact_embeddings argparse_parse_args [] empty_pinecone)
      as (_ & Hstatus & _).
    apply Hstatus. reflexivity.
  - destruct (main_exit_status nfd_latin1 fixed_clock Z memory_index
                memory_upsert every_path (paragraphs_of [lit "Hello world."])
                exact_embeddings argparse_parse_args [lit "notes.txt"]
                empty_pinecone) as (_ & _ & _ & Hfile).
    destruct (Hfile (lit "notes.txt") eq_refl) as (_ & Hsuffix & _).
    apply Hsuffix. vm_compute. intros Hin.
    repeat (apply elem_of_cons in Hin as [Hin|Hin]; [discriminate|]).
    by apply elem_of_nil in Hin.
  - destruct (main_exit_status nfd_latin1 fixed_clock Z memory_index
                memory_upsert every_path (paragraphs_of [lit "Hello world."])
                lossy_embeddings argparse_parse_args [lit "notes.docx"]
                empty_pinecone) as (_ & _ & _ & Hfile).
    destruct (Hfile (lit "notes.docx") eq_refl) as (_ & _ & Hstep).
    apply (Hstep (Path (lit "notes.docx"))
             (ValueError (lit "Embeddings list cannot be empty")));
      [reflexivity | reflexivity | by left].
Defined.

(** * Further properties of the code *)

(** ** The shape of a cleaned name *)

Lemma last_join_free c (l : list str) :
  Forall (fun x => (c ∉ x) /\ x <> []) l -> last (join [c] l) <> Some c.
Proof.
  induction 1 as [|x l [Hx Hne] Hl IH]; [done|]. cbn [join].
  destruct l as [|y l'].
  - intros E. by apply last_Some_elem_of in E.
  - change (x ++ [c] ++ join [c] (y :: l'))
      with (x ++ c :: join [c] (y :: l')).
    rewrite last_app_cons.
    inversion_clear Hl as [|? ? [_ Hy] _].
    assert (E : exists a t, join [c] (y :: l') = a :: t).
    { destruct y as [|a y]; [done|]. cbn [join]. destruct l'; by eexists _, _. }
    destruct E as (a & t & E). rewrite E in IH |- *.
    by rewrite last_cons_cons.
Qed.

Lemma head_join_free c (l : list str) :
  Forall (fun x => (c ∉ x) /\ x <> []) l -> head (join [c] l) <> Some c.
Proof.
  destruct 1 as [|x l [Hx Hne] Hl]; [done|]. cbn [join].
  destruct x as [|a x]; [done|].
  apply not_elem_of_cons in Hx as [Hca _].
  destruct l; simpl; congruence.
Qed.

Lemma collapse_pieces s :
  Forall (fun x => (underscore ∉ x) /\ x <> [])
    (List.filter (fun p => negb (falsy p)) (split [underscore] s)).
Proof.
  assert (H : Forall (fun x => underscore ∉ x) (split [underscore] s)).
  { apply split_go_free, not_elem_of_nil. }
  induction H as [|x l Hx Hl IH]; simpl; [constructor|].
  destruct x; simpl; [done|]. by constructor.
Qed.

Lemma occurs_app_free c a : forall b,
  occurs [c; c] a = false -> occurs [c; c] b = false ->
  last a <> Some c ->
  occurs [c; c] (a ++ b) = false.
Proof.
  induction a as [|x a IH]; intros b Ha Hb Hlast; [done|].
  cbn [occurs] in Ha. apply orb_false_iff in Ha as [Hs Ha].
  change ((x :: a) ++ b) with (x :: (a ++ b)). cbn [occurs].
  rewrite IH; [| done | done |].
  - rewrite orb_false_r. cbn [starts_with] in *.
    destruct (N.eqb_spec c x) as [->|]; [|done]. simpl in *.
    destruct a as [|y a]; [by destruct Hlast|]. simpl in *.
    by destruct (N.eqb x y).
  - destruct a; [done|]. by rewrite last_cons_cons in Hlast.
Qed.

(** X1. The name part of a vector ID neither starts nor ends with an
    underscore, and the whole ID never holds two underscores in a row:
    runs of characters that were replaced are collapsed. *)
Theorem vector_id_underscores (nfd : str -> str) (file_path : str)
  (chunk_index : Z) :
  head (clean_name nfd file_path) <> Some underscore
  /\ last (clean_name nfd file_path) <> Some underscore
  /\ occurs [underscore; underscore]
       (generate_vector_id nfd file_path chunk_index) = false.
Proof.
  unfold generate_vector_id, clean_name, collapse_underscores.
  set (s := underscore_non_alnum _).
  pose proof (collapse_pieces s) as Hp.
  change (lit "_") with [underscore].
  split; [by apply head_join_free|]. split; [by apply last_join_free|].
  apply occurs_app_free; [by apply occurs_join | | by apply last_join_free].
  pose proof (str_int_no_underscore chunk_index) as Hfree.
  change (lit "_chunk_" ++ str_int chunk_index)
    with (underscore :: (lit "chunk" ++ underscore :: str_int chunk_index)).
  cbn [occurs]. rewrite (occurs_skip_over underscore (lit "chunk")).
  - assert (Hocc : occurs [underscore; underscore] (str_int chunk_index)
                   = false).
    { rewrite <- (app_nil_r (str_int chunk_index)).
      by rewrite occurs_skip_over. }
    cbn [occurs]. rewrite Hocc.
    destruct (str_int chunk_index) as [|d ds]; [done|].
    apply not_elem_of_cons in Hfree as [Hd _].
    cbn [starts_with]. rewrite N.eqb_refl.
    by destruct (N.eqb_spec underscore d).
  - intros Hin. vm_compute in Hin.
    repeat (apply elem_of_cons in Hin as [Hin|Hin]; [discriminate|]).
    by apply elem_of_nil in Hin.
Qed.

(** ** The batch sent to the index *)

Lemma map_fmap {A B} (f : A -> B) (l : list A) : map f l = f <$> l.
Proof. induction l as [|x l IH]; simpl; by rewrite ?IH. Qed.

Section Batch.
Variable nfd : str -> str.
Variable now_isoformat : Z -> str.
Variable Embedding : Type.
Variable Index : Type.
Variable index_upsert :
  Index -> list (vector Embedding) -> result (option Z) * Index.

Local Abbreviation world := (pinecone Embedding Index).
Local Abbreviation batch_of :=
  (vectors_to_upsert nfd now_isoformat Embedding).
Local Abbreviation store_embeddings' :=
  (store_embeddings nfd now_isoformat Embedding Index index_upsert).

(** X2. The batch pairs the [i]-th embedding with the [i]-th chunk, under
    the ID and the metadata derived from [i]; it is as long as the
    shorter of the two lists. *)
Theorem vectors_to_upsert_lookup (embeddings : list Embedding)
  (text_chunks : list str) (file_path : str) (i : nat)
  (v : vector Embedding) :
  (batch_of embeddings text_chunks file_path !! i = Some v
   <-> exists embedding text_chunk,
         embeddings !! i = Some embedding
         /\ text_chunks !! i = Some text_chunk
         /\ v = (generate_vector_id nfd file_path (Z.of_nat i), embedding,
                 create_metadata now_isoformat text_chunk file_path
                   (Z.of_nat i)))
  /\ length (batch_of embeddings text_chunks file_path)
     = (length embeddings `min` length text_chunks)%nat.
Proof.
  unfold vectors_to_upsert. split.
  - rewrite list_lookup_imap. split.
    + intros H. apply fmap_Some in H as ([e c] & Hz & ->).
      apply lookup_zip_with_Some in Hz as (e' & c' & [= <- <-] & He & Hc).
      by exists e, c.
    + intros (e & c & He & Hc & ->).
      apply fmap_Some. exists (e, c). split; [|done].
      apply lookup_zip_with_Some. by exists e, c.
  - by rewrite length_imap, length_zip_with.
Qed.

Lemma batch_ids (embeddings : list Embedding) (text_chunks : list str)
  (file_path : str) :
  length embeddings = length text_chunks ->
  vector_id <$> batch_of embeddings text_chunks file_path
  = (fun i => generate_vector_id nfd file_path (Z.of_nat i))
      <$> seq 0 (length embeddings).
Proof.
  intros Hlen. apply list_eq. intros i.
  etrans; [apply list_lookup_fmap|].
  etrans; [|symmetry; apply list_lookup_fmap].
  unfold vectors_to_upsert.
  rewrite list_lookup_imap, lookup_zip_with.
  destruct (embeddings !! i) as [e|] eqn:He; simpl.
  - destruct (text_chunks !! i) as [c|] eqn:Hc; simpl.
    + apply lookup_lt_Some in He. by rewrite lookup_seq_lt.
    + apply lookup_lt_Some in He. apply lookup_ge_None in Hc. lia.
  - apply lookup_ge_None in He. by rewrite lookup_seq_ge.
Qed.

Lemma ids_NoDup (file_path : str) (n : nat) :
  NoDup (map (fun i => generate_vector_id nfd file_path (Z.of_nat i))
           (seq 0 n)).
Proof.
  rewrite map_fmap. apply NoDup_fmap_2_strong; [|apply NoDup_seq].
  intros i j _ _ E. apply generate_vector_id_inv in E as [_ E]. lia.
Qed.

(** What [store_embeddings] does once its three checks are passed. *)
Lemma store_embeddings_sends (w : world) (embeddings : list Embedding)
  (text_chunks : list str) (file_path : str) :
  embeddings <> [] -> length embeddings = length text_chunks ->
  store_embeddings' w embeddings text_chunks file_path
  = ((except_Exception
        (upsert_response ←
           (index_upsert (remote _ _ w)
              (batch_of embeddings text_chunks file_path)).1;
         OK {| success := true;
               vectors_stored := default 0 upsert_response;
               index_name := PINECONE_INDEX_NAME;
               file_source := name (Path file_path);
               vector_ids :=
                 map (fun i =>
                        generate_vector_id nfd file_path (Z.of_nat i))
                     (seq 0 (length embeddings)) |})
        (fun e => Raise (Exception_
                           (lit "Error storing embeddings in Pinecone: "
                            ++ exn_str e)))),
     {| remote := (index_upsert (remote _ _ w)
                     (batch_of embeddings text_chunks file_path)).2;
        upserts := upserts _ _ w
                   ++ [batch_of embeddings text_chunks file_path] |}).
Proof.
  intros Hne Hlen. unfold store_embeddings, upsert.
  destruct embeddings as [|e es]; [done|].
  destruct text_chunks as [|c cs]; [done|]. cbn [falsy].
  unfold len. rewrite Hlen, Z.eqb_refl. cbn [negb].
  by destruct (index_upsert _ _) as [response remote'].
Qed.

Lemma store_embeddings_refuses (w : world) (embeddings : list Embedding)
  (text_chunks : list str) (file_path : str) :
  embeddings = [] \/ length embeddings <> length text_chunks ->
  exists msg,
    store_embeddings' w embeddings text_chunks file_path
    = (Raise (ValueError msg), w).
Proof.
  intros [-> | Hne]; [by eexists|].
  unfold store_embeddings.
  destruct (falsy embeddings); [by eexists|].
  destruct (falsy text_chunks); [by eexists|].
  destruct (Z.eqb_spec (len embeddings) (len text_chunks)) as [E|_].
  - unfold len in E. lia.
  - by eexists.
Qed.

(** X3. When [store_embeddings] succeeds, exactly one batch has been
    sent, with one vector per chunk; the IDs it returns are the IDs of
    that batch, in order, and no two of them are equal. *)
Theorem store_embeddings_success (w w' : world)
  (embeddings : list Embedding) (text_chunks : list str)
  (file_path : str) (r : store_result) :
  store_embeddings' w embeddings text_chunks file_path = (OK r, w') ->
  upserts _ _ w'
  = upserts _ _ w ++ [batch_of embeddings text_chunks file_path]
  /\ length (batch_of embeddings text_chunks file_path)
     = length text_chunks
  /\ text_chunks <> []
  /\ vector_ids r
     = vector_id <$> batch_of embeddings text_chunks file_path
  /\ NoDup (vector_ids r)
  /\ success r = true
  /\ file_source r = name (Path file_path).
Proof.
  intros E.
  destruct (decide (embeddings = []
                    \/ length embeddings <> length text_chunks))
    as [Hbad|Hgood].
  - destruct (store_embeddings_refuses w _ _ file_path Hbad) as [msg E'].
    congruence.
  - assert (Hne : embeddings <> []) by tauto.
    assert (Hlen : length embeddings = length text_chunks) by lia.
    rewrite store_embeddings_sends in E by done.
    injection E as Er <-. cbn [upserts].
    destruct (index_upsert _ _).1 as [response|e]; simpl in Er.
    + injection Er as <-. cbn [vector_ids success file_source].
      split; [done|].
      split; [unfold vectors_to_upsert;
              rewrite length_imap, length_zip_with; lia|].
      split; [intros ->; by destruct embeddings|].
      split; [rewrite batch_ids by done; apply map_fmap|].
      split; [apply ids_NoDup | done].
    + by destruct (is_Exception e).
Qed.

(** X4. [store_embeddings] sends at most one batch, and the class of
    its error tells whether it did: a [ValueError] means that nothing
    was sent and the index is as before; after a batch was sent, a
    failure of the index surfaces as a plain [Exception] whose message
    carries the cause. *)
Theorem store_embeddings_requests (w : world)
  (embeddings : list Embedding) (text_chunks : list str)
  (file_path : str) :
  let r := (store_embeddings' w embeddings text_chunks file_path).1 in
  let w' := (store_embeddings' w embeddings text_chunks file_path).2 in
  (w' = w /\ exists msg, r = Raise (ValueError msg))
  \/ (upserts _ _ w'
      = upserts _ _ w ++ [batch_of embeddings text_chunks file_path]
      /\ (forall e, r = Raise e ->
            (is_Exception e = false
             /\ (index_upsert (remote _ _ w)
                   (batch_of embeddings text_chunks file_path)).1
                = Raise e)
            \/ exists cause,
                 (index_upsert (remote _ _ w)
                    (batch_of embeddings text_chunks file_path)).1
                 = Raise cause
                 /\ e = Exception_
                          (lit "Error storing embeddings in Pinecone: "
                           ++ exn_str cause))).
Proof.
  cbv zeta.
  destruct (decide (embeddings = []
                    \/ length embeddings <> length text_chunks))
    as [Hbad|Hgood].
  - left. destruct (store_embeddings_refuses w _ _ file_path Hbad)
      as [msg ->]. split; [done | by exists msg].
  - right.
    assert (Hne : embeddings <> []) by tauto.
    assert (Hlen : length embeddings = length text_chunks) by lia.
    rewrite store_embeddings_sends by done. cbn [fst snd upserts].
    split; [done|]. intros e.
    destruct (index_upsert _ _).1 as [response|cause]; simpl; [done|].
    destruct (is_Exception cause) eqn:C.
    + intros [= <-]. right. by exists cause.
    + intros [= <-]. by left.
Qed.
End Batch.

Lemma store_embeddings_success_witness :
  exists r w',
    store_embeddings nfd_latin1 fixed_clock Z memory_index memory_upsert
      empty_pinecone [7; 8] [lit "Hello"; lit "world"] (lit "notes.docx")
    = (OK r, w')
    /\ vector_ids r = [lit "notes_chunk_0"; lit "notes_chunk_1"]
    /\ NoDup (vector_ids r)
    /\ length (upserts _ _ w') = 1%nat.
Proof.
  destruct (store_embeddings nfd_latin1 fixed_clock Z memory_index
              memory_upsert empty_pinecone [7; 8]
              [lit "Hello"; lit "world"] (lit "notes.docx"))
    as [[r|e] w'] eqn:E.
  - exists r, w'. split; [reflexivity|].
    destruct (store_embeddings_success nfd_latin1 fixed_clock Z memory_index
                memory_upsert empty_pinecone w' [7; 8]
                [lit "Hello"; lit "world"] (lit "notes.docx") r E)
      as (Hlog & _ & _ & Hids & Hnodup & _).
    split; [rewrite Hids; vm_compute; reflexivity|].
    split; [exact Hnodup|]. rewrite Hlog. reflexivity.
  - vm_compute in E. discriminate.
Defined.

(** ** Reading a document *)

Lemma extract_text_nil paragraphs :
  extract_text paragraphs = []
  <-> Forall (fun p => blank p = true) paragraphs.
Proof.
  unfold extract_text.
  induction paragraphs as [|p ps IH]; simpl; [done|].
  rewrite falsy_strip. destruct (blank p) eqn:B; simpl.
  - rewrite IH. split; [by constructor | by inversion 1].
  - split; [done|]. inversion 1; congruence.
Qed.

Lemma join_inked (l : list str) :
  l <> [] -> Forall (fun t => strip t = t /\ t <> []) l ->
  inked (join NL l).
Proof.
  intros Hne H. destruct H as [|x l [Hx Hxne] _]; [done|].
  assert (Hi : inked x).
  { unfold inked. destruct (blank x) eqn:B; [|done].
    apply strip_blank in B. congruence. }
  cbn [join]. destruct l; [done|].
  unfold inked. rewrite blank_app. unfold inked in Hi. by rewrite Hi.
Qed.

Section Reading.
Variable path_exists : str -> bool.
Variable docx_paragraphs : str -> result (list str).

Local Abbreviation read_document' :=
  (read_document path_exists docx_paragraphs).

Lemma read_document_parsed file_path paragraphs :
  path_exists (path_str (Path file_path)) = true ->
  docx_paragraphs (path_str (Path file_path)) = OK paragraphs ->
  read_document' file_path
  = if bool_decide (Forall (fun p => blank p = true) paragraphs)
    then Raise (ValueError (lit "No text content found in document: "
                            ++ name (Path file_path)))
    else OK (join NL (extract_text paragraphs)).
Proof.
  intros Hex Hdoc. unfold read_document. rewrite Hex, Hdoc. simpl.
  rewrite falsy_strip. case_bool_decide as Hall.
  - apply extract_text_nil in Hall. by rewrite Hall.
  - assert (Hne : extract_text paragraphs <> []).
    { intros E. by apply Hall, extract_text_nil. }
    pose proof (join_inked _ Hne (extract_text_spec paragraphs)) as Hi.
    unfold inked in Hi. by rewrite Hi.
Qed.

(** X5. [read_document] succeeds exactly when the file exists, the
    parser delivers its paragraphs, and at least one paragraph holds a
    character that is not whitespace; the text is then the trimmed
    non-blank paragraphs joined by newlines. *)
Theorem read_document_success (file_path text : str) :
  read_document' file_path = OK text
  <-> path_exists (path_str (Path file_path)) = true
      /\ exists paragraphs,
           docx_paragraphs (path_str (Path file_path)) = OK paragraphs
           /\ Exists inked paragraphs
           /\ text = join NL (extract_text paragraphs).
Proof.
  split.
  - intros E. pose proof E as E'.
    apply read_document_ok in E' as (paragraphs & Hdoc & -> & Hne).
    assert (Hex : path_exists (path_str (Path file_path)) = true).
    { unfold read_document in E.
      destruct (path_exists _); [done | discriminate]. }
    split; [done|]. exists paragraphs. split; [done|]. split; [|done].
    rewrite (read_document_parsed _ _ Hex Hdoc) in E.
    case_bool_decide as Hall; [done|].
    apply not_Forall_Exists in Hall; [|solve_decision].
    eapply Exists_impl; [exact Hall|]. intros p Hp.
    by apply not_true_is_false.
  - intros (Hex & paragraphs & Hdoc & Hink & ->).
    rewrite (read_document_parsed _ _ Hex Hdoc).
    rewrite bool_decide_eq_false_2; [done|].
    intros Hall. apply Exists_exists in Hink as (p & Hin & Hp).
    rewrite Forall_forall in Hall. apply Hall in Hin. congruence.
Qed.

End Reading.

Lemma read_document_success_witness :
  read_document every_path
    (paragraphs_of [lit " Title "; lit "  "; lit "Body. "]) (lit "notes.docx")
  = OK (lit "Title" ++ NL ++ lit "Body.").
Proof.
  apply (read_document_success every_path
           (paragraphs_of [lit " Title "; lit "  "; lit "Body. "])).
  split; [reflexivity|].
  exists [lit " Title "; lit "  "; lit "Body. "].
  split; [reflexivity|]. split; [left; reflexivity | reflexivity].
Defined.

(** When the existence check answers, [read_document_os] is
    [read_document] with that answer. *)
Lemma read_document_os_answers path_exists_os docx_paragraphs file_path
  found :
  path_exists_os (path_str (Path file_path)) = Answers found ->
  read_document_os path_exists_os docx_paragraphs file_path
  = read_document (fun _ => found) docx_paragraphs file_path.
Proof. intros E. unfold read_document_os, read_document. by rewrite E. Qed.

(** X6. How [read_document] fails.  When the existence check answers
    that the file is missing, the error is [FileNotFoundError] with the
    path, whatever the parser would do.  When the check itself fails
    with an [OSError], the error is a plain [Exception] that names the
    file and carries the cause.  When the file exists and the parser
    succeeds, the "No text content" [ValueError] is raised exactly for a
    document all of whose paragraphs are blank (or which has none).  An
    error of the parser other than [FileNotFoundError] and [ValueError],
    of class [Exception], comes out as a plain [Exception] that names
    the file; those two and interrupts pass through as they are. *)
Theorem read_document_failures (path_exists_os : str -> exists_outcome)
  (docx_paragraphs : str -> result (list str)) (file_path : str) :
  (path_exists_os (path_str (Path file_path)) = Answers false ->
   read_document_os path_exists_os docx_paragraphs file_path
   = Raise (FileNotFoundError
              (lit "Document not found: " ++ path_str (Path file_path))))
  /\ (forall cause,
        path_exists_os (path_str (Path file_path)) = FailsOSError cause ->
        read_document_os path_exists_os docx_paragraphs file_path
        = Raise (Exception_
                   (lit "Error reading document " ++ name (Path file_path)
                    ++ lit ": " ++ cause)))
  /\ (forall paragraphs,
        path_exists_os (path_str (Path file_path)) = Answers true ->
        docx_paragraphs (path_str (Path file_path)) = OK paragraphs ->
        (read_document_os path_exists_os docx_paragraphs file_path
         = Raise (ValueError (lit "No text content found in document: "
                              ++ name (Path file_path)))
         <-> Forall (fun p => blank p = true) paragraphs))
  /\ (forall e,
        path_exists_os (path_str (Path file_path)) = Answers true ->
        docx_paragraphs (path_str (Path file_path)) = Raise e ->
        read_document_os path_exists_os docx_paragraphs file_path
        = Raise (match e with
                 | FileNotFoundError _ | ValueError _
                 | KeyboardInterrupt | SystemExit _ => e
                 | _ => Exception_
                          (lit "Error reading document "
                           ++ name (Path file_path) ++ lit ": "
                           ++ exn_str e)
                 end)).
Proof.
  split; [|split; [|split]].
  - intros Hex. unfold read_document_os. by rewrite Hex.
  - intros cause Hex. unfold read_document_os. by rewrite Hex.
  - intros paragraphs Hex Hdoc.
    rewrite (read_document_os_answers _ _ _ _ Hex).
    rewrite (read_document_parsed (fun _ => true) docx_paragraphs
               file_path paragraphs eq_refl Hdoc).
    case_bool_decide as Hall; [done|]. split; [done | tauto].
  - intros e Hex Hdoc. unfold read_document_os. rewrite Hex, Hdoc.
    by destruct e.
Qed.

Lemma read_document_failures_witness :
  read_document_os no_path_os (paragraphs_of [lit "Title"])
    (lit "notes.docx")
  = Raise (FileNotFoundError (lit "Document not found: notes.docx"))
  /\ read_document_os (failing_path_os (lit "File name too long"))
       (paragraphs_of [lit "Title"]) (lit "dir/notes.docx")
     = Raise (Exception_
                (lit "Error reading document notes.docx: File name too long"))
  /\ read_document_os every_path_os (paragraphs_of [lit "  "; []])
       (lit "notes.docx")
     = Raise (ValueError (lit "No text content found in document: notes.docx"))
  /\ read_document_os every_path_os
       (fun _ => Raise (OpenAIError (lit "boom"))) (lit "dir/notes.docx")
     = Raise (Exception_ (lit "Error reading document notes.docx: boom")).
Proof.
  split; [|split; [|split]].
  - destruct (read_document_failures no_path_os
                (paragraphs_of [lit "Title"]) (lit "notes.docx"))
      as (Hmissing & _).
    apply Hmissing. reflexivity.
  - destruct (read_document_failures
                (failing_path_os (lit "File name too long"))
                (paragraphs_of [lit "Title"]) (lit "dir/notes.docx"))
      as (_ & Hos & _).
    apply (Hos (lit "File name too long")). reflexivity.
  - destruct (read_document_failures every_path_os
                (paragraphs_of [lit "  "; []]) (lit "notes.docx"))
      as (_ & _ & Hblank & _).
    apply (Hblank [lit "  "; []]); [reflexivity | reflexivity |].
    repeat constructor.
  - destruct (read_document_failures every_path_os
                (fun _ => Raise (OpenAIError (lit "boom")))
                (lit "dir/notes.docx")) as (_ & _ & _ & Hparser).
    apply (Hparser (OpenAIError (lit "boom"))); reflexivity.
Defined.

(** ** The chunks of split_text *)

Lemma split_text_ok_inv text chunks :
  split_text text = OK chunks ->
  blank text = false
  /\ chunks
     = map strip
         (List.filter (fun chunk => negb (falsy (strip chunk)))
            (splitter_split_text CHUNK_SIZE CHUNK_OVERLAP text))
  /\ chunks <> [].
Proof.
  unfold split_text. rewrite split_text_guard.
  destruct (blank text); [done|].
  destruct (map strip _) as [|c l]; simpl; [done|].
  by intros [= <-].
Qed.

(** X7. Every chunk that [split_text] returns is trimmed and holds a
    character that is not whitespace: the filter and the final strip
    leave neither blank chunks nor whitespace around a chunk. *)
Theorem split_text_chunks_trimmed (text : str) (chunks : list str) :
  split_text text = OK chunks ->
  Forall (fun chunk => strip chunk = chunk /\ inked chunk) chunks.
Proof.
  intros E. apply split_text_ok_inv in E as (_ & -> & _).
  apply Forall_map, Forall_forall. intros c Hin.
  apply list_elem_of_In, filter_In in Hin as [_ Hc].
  split; [apply strip_idem|].
  rewrite falsy_strip in Hc. apply strip_ink. by destruct (blank c).
Qed.

Lemma split_text_chunks_trimmed_witness :
  Forall (fun chunk => strip chunk = chunk /\ inked chunk)
    [lit "Hello world."].
Proof.
  apply (split_text_chunks_trimmed (lit "  Hello world. ")). reflexivity.
Defined.

Section ReadThenSplit.
Variable path_exists : str -> bool.
Variable docx_paragraphs : str -> result (list str).

(** X8. Whatever [read_document] returns, [split_text] accepts: after a
    successful read the split step does not fail, and yields at least
    one chunk. *)
Theorem read_then_split (file_path text : str) :
  read_document path_exists docx_paragraphs file_path = OK text ->
  exists chunks, split_text text = OK chunks /\ chunks <> [].
Proof.
  intros E. apply read_document_ok in E as (_ & _ & _ & Hne).
  destruct (split_text_inked text) as (chunks & Hs & Hcs & _).
  - unfold inked. destruct (blank text) eqn:B; [|done].
    by apply strip_nil_iff in B.
  - by exists chunks.
Qed.

Local Abbreviation test_with_document_reader' :=
  (test_with_document_reader path_exists docx_paragraphs).
Local Abbreviation text_splitter_main' :=
  (text_splitter_main path_exists docx_paragraphs).

Lemma test_with_document_reader_spec (file_path : str) :
  test_with_document_reader' file_path
  = match read_document path_exists docx_paragraphs file_path with
    | OK text =>
        match split_text text with
        | OK chunks => OK (Some chunks)
        | Raise _ => OK None
        end
    | Raise e => if is_Exception e then OK None else Raise e
    end.
Proof.
  unfold test_with_document_reader.
  destruct (read_document _ _ _) as [text|e] eqn:E; simpl; [|done].
  destruct (read_then_split _ _ E) as (chunks & -> & _). done.
Qed.

(** X9. [test_with_document_reader] returns [None] exactly when reading
    the document fails with an error of class [Exception]; otherwise it
    returns a non-empty list of chunks, or lets an interrupt through.
    It never raises an error of class [Exception] itself. *)
Theorem test_with_document_reader_outcomes (file_path : str) :
  (test_with_document_reader' file_path = OK None
   <-> exists e,
         read_document path_exists docx_paragraphs file_path = Raise e
         /\ is_Exception e = true)
  /\ (forall chunks,
        test_with_document_reader' file_path = OK (Some chunks) ->
        chunks <> []
        /\ exists text,
             read_document path_exists docx_paragraphs file_path = OK text
             /\ split_text text = OK chunks)
  /\ (forall e,
        test_with_document_reader' file_path = Raise e ->
        is_Exception e = false
        /\ read_document path_exists docx_paragraphs file_path = Raise e).
Proof.
  rewrite test_with_document_reader_spec.
  destruct (read_document _ _ _) as [text|e] eqn:E.
  - destruct (read_then_split _ _ E) as (chunks & Hs & Hne). rewrite Hs.
    split; [|split].
    + split; [done | by intros (e & ? & _)].
    + intros ? [= <-]. split; [done | by exists text].
    + done.
  - destruct (is_Exception e) eqn:C; (split; [|split]); try done.
    + split; [by exists e | done].
    + split; [done | by intros (e' & [= <-] & ?); congruence].
    + by intros ? [= <-].
Qed.

(** X10. The exit status of the script [text_splitter.py].  Without
    exactly one argument it is 1.  For an argument ending in [.docx] or
    [.doc] it is 0 even when the document cannot be read, since the test
    helper has already swallowed the error; only an interrupt ends the
    script otherwise.  For any other argument, taken as raw text, it is
    1 when the text is blank and 0 when it is not. *)
Theorem text_splitter_main_status (sys_argv : list str) :
  (length sys_argv <> 2%nat -> text_splitter_main' sys_argv = OK 1)
  /\ (forall script input_arg,
        sys_argv = [script; input_arg] ->
        ends_with (lit ".docx") input_arg || ends_with (lit ".doc") input_arg
        = true ->
        text_splitter_main' sys_argv
        = match read_document path_exists docx_paragraphs input_arg with
          | Raise e => if is_Exception e then OK 0 else Raise e
          | OK _ => OK 0
          end)
  /\ (forall script input_arg,
        sys_argv = [script; input_arg] ->
        ends_with (lit ".docx") input_arg || ends_with (lit ".doc") input_arg
        = false ->
        text_splitter_main' sys_argv = OK (if blank input_arg then 1 else 0)).
Proof.
  split; [|split].
  - intros Hlen. by destruct sys_argv as [|? [|? [|? ?]]].
  - intros script input_arg -> Hdoc. unfold text_splitter_main.
    rewrite Hdoc, test_with_document_reader_spec.
    destruct (read_document _ _ _) as [text|e] eqn:E.
    + by destruct (read_then_split _ _ E) as (chunks & -> & _).
    + destruct (is_Exception e) eqn:C; simpl; by rewrite ?C.
  - intros script input_arg -> Htext. unfold text_splitter_main.
    rewrite Htext. destruct (blank input_arg) eqn:B.
    + by rewrite split_text_blank.
    + by destruct (split_text_inked _ B) as (chunks & -> & _).
Qed.
End ReadThenSplit.

Lemma read_then_split_witness :
  exists chunks,
    split_text (lit "Title" ++ NL ++ lit "Body.") = OK chunks
    /\ chunks <> [].
Proof.
  apply (read_then_split every_path
           (paragraphs_of [lit " Title "; lit "  "; lit "Body. "])
           (lit "notes.docx")).
  reflexivity.
Defined.

Lemma test_with_document_reader_outcomes_witness :
  test_with_document_reader (fun _ => false) (paragraphs_of [lit "Title"])
    (lit "notes.docx") = OK None
  /\ [lit "Title"] <> [].
Proof.
  split.
  - destruct (test_with_document_reader_outcomes (fun _ => false)
                (paragraphs_of [lit "Title"]) (lit "notes.docx"))
      as ([_ Hnone] & _).
    apply Hnone. eexists. split; reflexivity.
  - destruct (test_with_document_reader_outcomes every_path
                (paragraphs_of [lit "Title"]) (lit "notes.docx"))
      as (_ & Hsome & _).
    apply (Hsome [lit "Title"]). reflexivity.
Defined.

Lemma text_splitter_main_status_witness :
  text_splitter_main (fun _ => false) (paragraphs_of [])
    [lit "text_splitter.py"; lit "missing.docx"] = OK 0
  /\ text_splitter_main every_path (paragraphs_of [])
       [lit "text_splitter.py"; lit "   "] = OK 1
  /\ text_splitter_main every_path (paragraphs_of [])
       [lit "text_splitter.py"] = OK 1.
Proof.
  split; [|split].
  - destruct (text_splitter_main_status (fun _ => false) (paragraphs_of [])
                [lit "text_splitter.py"; lit "missing.docx"])
      as (_ & Hdoc & _).
    apply (Hdoc (lit "text_splitter.py") (lit "missing.docx"));
      reflexivity.
  - destruct (text_splitter_main_status every_path (paragraphs_of [])
                [lit "text_splitter.py"; lit "   "]) as (_ & _ & Htext).
    apply (Htext (lit "text_splitter.py") (lit "   ")); reflexivity.
  - destruct (text_splitter_main_status every_path (paragraphs_of [])
                [lit "text_splitter.py"]) as (Hargs & _).
    apply Hargs. simpl. lia.
Defined.

(** ** The pipeline and the index *)

Section Effects.
Variable nfd : str -> str.
Variable now_isoformat : Z -> str.
Variable Embedding : Type.
Variable Index : Type.
Variable index_upsert :
  Index -> list (vector Embedding) -> result (option Z) * Index.
Variable path_exists : str -> bool.
Variable docx_paragraphs : str -> result (list str).
Variable embeddings_create : list str -> result (list Embedding).

Local Abbreviation world := (pinecone Embedding Index).
Local Abbreviation batch_of :=
  (vectors_to_upsert nfd now_isoformat Embedding).
Local Abbreviation stored' :=
  (stored nfd now_isoformat Embedding Index path_exists docx_paragraphs
     embeddings_create).
Local Abbreviation pipeline' :=
  (pipeline nfd now_isoformat Embedding Index index_upsert path_exists
     docx_paragraphs embeddings_create).
Local Abbreviation process_document' :=
  (process_document nfd now_isoformat Embedding Index index_upsert
     path_exists docx_paragraphs embeddings_create).

(** Either the pipeline fails with the index untouched, or the store
    step has sent the batch (and may still fail afterwards). *)
Lemma pipeline_effects (w : world) (file_path : str) :
  ((pipeline' w file_path).2 = w
   /\ exists e, (pipeline' w file_path).1 = Raise e)
  \/ stored' w (pipeline' w file_path).2 file_path.
Proof.
  unfold pipeline.
  destruct (read_document _ _ _) as [text|e] eqn:Hread;
    [|left; by eauto].
  destruct (split_text text) as [chunks|e] eqn:Hsplit; [|left; by eauto].
  destruct (generate_embeddings _ _ _) as [embs|e] eqn:Hembed;
    [|left; by eauto].
  destruct (decide (embs = [] \/ length embs <> length chunks))
    as [Hbad|Hgood].
  - left.
    destruct (store_embeddings_refuses nfd now_isoformat Embedding Index
                index_upsert w _ _ file_path Hbad) as [msg ->].
    split; [done | by eexists].
  - right. exists text, chunks, embs.
    assert (Hne : embs <> []) by tauto.
    assert (Hlen : length embs = length chunks) by lia.
    rewrite store_embeddings_sends by done. cbn [snd upserts].
    repeat split; try done.
    unfold vectors_to_upsert.
    rewrite length_imap, length_zip_with. lia.
Qed.

Lemma pipeline_ok (w : world) (file_path : str) (r : store_result) :
  (pipeline' w file_path).1 = OK r ->
  stored' w (pipeline' w file_path).2 file_path.
Proof.
  intros E. destruct (pipeline_effects w file_path) as [[_ [e He]]|H];
    [congruence | done].
Qed.

(** X11. When [process_document] returns [True], the document was read,
    split and embedded, the provider returned one vector per chunk, and
    exactly one batch, with one vector per chunk, was sent to the
    index. *)
Theorem process_document_true (w w' : world) (file_path : str) :
  process_document' w file_path = (OK true, w') ->
  stored' w w' file_path.
Proof.
  rewrite process_document_spec. intros [= Hr <-].
  destruct (pipeline' w file_path).1 as [r|e] eqn:E.
  - by apply (pipeline_ok _ _ r).
  - by destruct (is_Exception e).
Qed.

(** X12. [process_document] never raises an error of class
    [Exception]: every such failure becomes the result [False].  A
    failure in reading, splitting or embedding, or a refusal by the
    checks of the store step, leaves the index and the record of upserts
    as they were; in any run at most one batch is sent. *)
Theorem process_document_effects (w : world) (file_path : str) :
  (forall e, (process_document' w file_path).1 = Raise e ->
     is_Exception e = false)
  /\ ((process_document' w file_path).2 = w
      \/ stored' w (process_document' w file_path).2 file_path)
  /\ ((forall text,
         read_document path_exists docx_paragraphs file_path = OK text ->
         forall text_chunks,
           split_text text = OK text_chunks ->
           forall embeddings,
             generate_embeddings Embedding embeddings_create text_chunks
             = OK embeddings ->
             length embeddings <> length text_chunks) ->
      process_document' w file_path = (OK false, w)
      \/ exists e, is_Exception e = false
                   /\ process_document' w file_path = (Raise e, w)).
Proof.
  rewrite process_document_spec. cbn [fst snd]. split; [|split].
  - intros e. destruct (pipeline' w file_path).1 as [r|e']; [done|].
    destruct (is_Exception e') eqn:C; [done|]. by intros [= <-].
  - destruct (pipeline_effects w file_path) as [[Hw _]|H];
      [by left | by right].
  - intros Hfail.
    destruct (pipeline_effects w file_path) as [[Hw [e He]]|H].
    + rewrite Hw, He. destruct (is_Exception e) eqn:C; [by left|].
      right. by exists e.
    + destruct H as (text & chunks & embs & Hr & Hs & Hg & Hlen & _).
      by destruct (Hfail text Hr chunks Hs embs Hg).
Qed.

Variable parse_args : list str -> result str.

Local Abbreviation main' :=
  (main nfd now_isoformat Embedding Index index_upsert path_exists
     docx_paragraphs embeddings_create parse_args).

(** The index that [main] leaves behind is the one the pipeline
    leaves, if the pipeline is started at all. *)
Lemma main_world (argv : list str) (w : world) :
  (main' argv w).2
  = match parse_args argv with
    | OK file_arg =>
        match validate_file_path path_exists file_arg with
        | OK validated_path => (pipeline' w (path_str validated_path)).2
        | Raise _ => w
        end
    | Raise _ => w
    end.
Proof.
  unfold main, main_try, parse_arguments.
  destruct (parse_args argv) as [file_arg|e]; [|done].
  destruct (validate_file_path path_exists file_arg) as [vp|e]; [|done].
  rewrite process_document_spec.
  destruct (pipeline' w (path_str vp)) as [[r|e] w']; simpl; [done|].
  by destruct e.
Qed.

(** X13. A run of [main] sends at most one batch to the index, and none
    unless the arguments were parsed and the file was validated: when
    the index is not as before, the run has read, split and embedded the
    validated file and has sent exactly one batch, with one vector per
    chunk. *)
Theorem main_effects (argv : list str) (w : world) :
  (main' argv w).2 = w
  \/ exists file_arg validated_path,
       parse_args argv = OK file_arg
       /\ validate_file_path path_exists file_arg = OK validated_path
       /\ stored' w (main' argv w).2 (path_str validated_path).
Proof.
  rewrite main_world.
  destruct (parse_args argv) as [file_arg|e]; [|by left].
  destruct (validate_file_path path_exists file_arg) as [vp|e] eqn:Hv;
    [|by left].
  destruct (pipeline_effects w (path_str vp)) as [[Hsame _]|Hstored].
  - by left.
  - right. exists file_arg, vp.
    split; [done|]. split; [exact Hv | exact Hstored].
Qed.
End Effects.

Lemma process_document_true_witness :
  exists w',
    process_document nfd_latin1 fixed_clock Z memory_index memory_upsert
      every_path (paragraphs_of [lit "Hello world."]) exact_embeddings
      empty_pinecone (lit "notes.docx")
    = (OK true, w')
    /\ length (upserts _ _ w') = 1%nat.
Proof.
  destruct (process_document nfd_latin1 fixed_clock Z memory_index
              memory_upsert every_path (paragraphs_of [lit "Hello world."])
              exact_embeddings empty_pinecone (lit "notes.docx"))
    as [[[|]|e] w'] eqn:E;
    [|vm_compute in E; discriminate..].
  exists w'. split; [reflexivity|].
  destruct (process_document_true nfd_latin1 fixed_clock Z memory_index
              memory_upsert every_path (paragraphs_of [lit "Hello world."])
              exact_embeddings empty_pinecone w' (lit "notes.docx") E)
    as (text & chunks & embs & _ & _ & _ & _ & Hlog & _).
  rewrite Hlog. reflexivity.
Defined.

Lemma process_document_effects_witness :
  process_document nfd_latin1 fixed_clock Z memory_index memory_upsert
    every_path (paragraphs_of [lit "Hello world."]) lossy_embeddings
    empty_pinecone (lit "notes.docx")
  = (OK false, empty_pinecone)
  \/ exists e,
       is_Exception e = false
       /\ process_document nfd_latin1 fixed_clock Z memory_index
            memory_upsert every_path (paragraphs_of [lit "Hello world."])
            lossy_embeddings empty_pinecone (lit "notes.docx")
          = (Raise e, empty_pinecone).
Proof.
  destruct (process_document_effects nfd_latin1 fixed_clock Z memory_index
              memory_upsert every_path (paragraphs_of [lit "Hello world."])
              lossy_embeddings empty_pinecone (lit "notes.docx"))
    as (_ & _ & Huntouched).
  apply Huntouched.
  intros text Hr. vm_compute in Hr. injection Hr as <-.
  intros chunks Hs. vm_compute in Hs. injection Hs as <-.
  intros embs Hg. vm_compute in Hg. injection Hg as <-.
  simpl. lia.
Defined.

(** ** Validated paths *)

Lemma lower_char_dot c : lower_char c = 46%N -> c = 46%N.
Proof.
  unfold lower_char. destruct (_ && _) eqn:C; [|done].
  unbool. lia.
Qed.

Lemma suffix_index_bounds nm i :
  suffix_index nm = Some i -> (0 < i < length nm)%nat.
Proof.
  unfold suffix_index. destruct (_ && _) eqn:C; [|done].
  intros [= <-]. apply andb_true_iff in C as [C1 C2].
  apply Z.ltb_lt in C1, C2. unfold len in C2. lia.
Qed.

Section Validation.
Variable path_exists : str -> bool.

(** X14. A path that [validate_file_path] accepts is the normalised
    path of an existing file whose name is a non-empty stem followed by
    the extension [.docx] or [.doc] in any letter case; a name that
    consists of the extension alone, such as [.docx], is refused. *)
Theorem validate_file_path_accepts (file_path : str)
  (validated_path : PurePath) :
  validate_file_path path_exists file_path = OK validated_path ->
  validated_path = Path file_path
  /\ path_exists (path_str validated_path) = true
  /\ name validated_path = stem validated_path ++ suffix validated_path
  /\ stem validated_path <> []
  /\ head (suffix validated_path) = Some 46%N
  /\ (lower (suffix validated_path) = lit ".docx"
      \/ lower (suffix validated_path) = lit ".doc").
Proof.
  unfold validate_file_path.
  destruct (path_exists _) eqn:Hex; [|done]. cbn [negb].
  case_bool_decide as Hsuf; [|done]. intros [= <-].
  split; [done|]. split; [done|].
  assert (Hcases : lower (suffix (Path file_path)) = lit ".docx"
                   \/ lower (suffix (Path file_path)) = lit ".doc").
  { apply elem_of_cons in Hsuf as [?|Hsuf]; [by left|].
    apply elem_of_cons in Hsuf as [?|Hsuf]; [by right|].
    by apply elem_of_nil in Hsuf. }
  unfold stem, suffix in *.
  destruct (suffix_index (name (Path file_path))) as [i|] eqn:Hi.
  - apply suffix_index_bounds in Hi.
    split; [by rewrite take_drop|].
    split.
    { intros E. apply (f_equal length) in E.
      rewrite length_take in E. simpl in E. lia. }
    split; [|done].
    destruct (drop i (name (Path file_path))) as [|c t] eqn:Hd.
    + by destruct Hcases.
    + simpl. f_equal. apply lower_char_dot.
      destruct Hcases as [E|E]; by injection E.
  - by destruct Hcases.
Qed.
End Validation.

Lemma validate_file_path_accepts_witness :
  name (Path (lit "docs//Report.v2.DOCX"))
  = stem (Path (lit "docs//Report.v2.DOCX"))
    ++ suffix (Path (lit "docs//Report.v2.DOCX"))
  /\ lower (suffix (Path (lit "docs//Report.v2.DOCX"))) = lit ".docx".
Proof.
  destruct (validate_file_path_accepts every_path
              (lit "docs//Report.v2.DOCX")
              (Path (lit "docs//Report.v2.DOCX")))
    as (_ & _ & Hname & _ & _ & Hsuf); [reflexivity|].
  split; [exact Hname|]. destruct Hsuf as [H|H]; [exact H|].
  vm_compute in H. discriminate.
Defined.

(** ** Normalised paths *)

Lemma filter_components (l : list str) :
  Forall (fun c => is_component c = true) (List.filter is_component l).
Proof.
  induction l as [|x l IH]; simpl; [constructor|].
  destruct (is_component x) eqn:E; [by constructor | done].
Qed.

Lemma filter_id {A} (f : A -> bool) (l : list A) :
  Forall (fun x => f x = true) l -> List.filter f l = l.
Proof.
  induction 1 as [|x l Hx Hl IH]; simpl; [done|]. by rewrite Hx, IH.
Qed.

Lemma parts_spec p :
  Forall (fun c => is_component c = true /\ (47%N ∉ c) /\ c <> [])
    (parts (Path p)).
Proof.
  unfold Path. cbn [parts].
  assert (H : Forall (fun x => 47%N ∉ x) (split (lit "/") p)).
  { apply (split_go_free 47%N), not_elem_of_nil. }
  induction H as [|x l Hx Hl IH]; simpl; [constructor|].
  destruct (is_component x) eqn:E; [|done].
  constructor; [|done]. split; [done|]. split; [done|]. by destruct x.
Qed.

Lemma leading_slashes_join (ps : list str) :
  Forall (fun c => is_component c = true /\ (47%N ∉ c) /\ c <> []) ps ->
  leading_slashes (join (lit "/") ps) = 0%nat.
Proof.
  destruct 1 as [|x l (_ & Hx & Hne) _]; [done|].
  destruct x as [|a x]; [done|].
  apply not_elem_of_cons in Hx as [Ha _].
  destruct l; cbn [join app leading_slashes];
    by destruct (N.eqb_spec a 47).
Qed.

Lemma split_slashes (ps : list str) :
  Forall (fun c => is_component c = true /\ (47%N ∉ c) /\ c <> []) ps ->
  List.filter is_component (split [47%N] (join [47%N] ps)) = ps.
Proof.
  intros H. destruct ps as [|x l]; [done|].
  rewrite split_join; [|done|].
  - apply filter_id. eapply Forall_impl; [exact H|]. by intros c (? & _).
  - eapply Forall_impl; [exact H|]. by intros c (_ & ? & _).
Qed.

(** Normalising a normalised path changes nothing. *)
Lemma Path_idempotent p : Path (path_str (Path p)) = Path p.
Proof.
  pose proof (parts_spec p) as Hparts.
  assert (Hroot : root (Path p) = [] \/ root (Path p) = [47%N]
                  \/ root (Path p) = [47%N; 47%N]).
  { unfold Path. cbn [root].
    destruct (leading_slashes p) as [|[|[|n]]]; auto. }
  destruct (Path p) as [r ps] eqn:EP. cbn [root parts] in *.
  unfold path_str. cbn [root parts].
  assert (Hgen : Path (r ++ join (lit "/") ps) = {| root := r; parts := ps |}
                 \/ (r = [] /\ ps = [])).
  { destruct (decide (r = [] /\ ps = [])) as [?|Hne]; [by right|]. left.
    pose proof (leading_slashes_join ps Hparts) as Hj.
    unfold Path. change (lit "/") with [47%N] in *.
    change (lit "//") with [47%N; 47%N].
    f_equal.
    - destruct Hroot as [->|[->| ->]]; cbn [app leading_slashes];
        rewrite ?N.eqb_refl, Hj; done.
    - destruct Hroot as [->|[->| ->]].
      + by apply split_slashes.
      + change ([47%N] ++ ?j) with (47%N :: j). unfold split.
        rewrite split_go_cut. cbn [rev List.filter is_component falsy negb andb].
        destruct ps as [|x l]; [done|]. by apply (split_slashes (x :: l)).
      + change ([47%N; 47%N] ++ ?j) with (47%N :: 47%N :: j). unfold split.
        rewrite !split_go_cut.
        cbn [rev List.filter is_component falsy negb andb].
        destruct ps as [|x l]; [done|]. by apply (split_slashes (x :: l)). }
  destruct Hgen as [Hgen|[-> ->]].
  - destruct r, ps; exact Hgen.
  - done.
Qed.

(** X15. The path that [main] passes on after validation is already
    normalised: normalising it again, as every step does, gives the
    same path.  So the existence check of [read_document] looks at the
    very file that [validate_file_path] found, and the vector IDs and
    the metadata are those of the path given on the command line. *)
Theorem validated_path_stable (path_exists : str -> bool)
  (nfd : str -> str) (now_isoformat : Z -> str)
  (file_path : str) (validated_path : PurePath) :
  validate_file_path path_exists file_path = OK validated_path ->
  Path (path_str validated_path) = validated_path
  /\ path_exists (path_str (Path (path_str validated_path))) = true
  /\ (forall i,
        generate_vector_id nfd (path_str validated_path) i
        = generate_vector_id nfd file_path i)
  /\ (forall text_chunk i,
        create_metadata now_isoformat text_chunk (path_str validated_path) i
        = create_metadata now_isoformat text_chunk file_path i).
Proof.
  unfold validate_file_path.
  destruct (path_exists _) eqn:Hex; [|done]. cbn [negb].
  case_bool_decide; [|done]. intros [= <-].
  rewrite Path_idempotent. split; [done|]. split; [done|].
  split; intros;
    unfold generate_vector_id, clean_name, create_metadata;
    by rewrite Path_idempotent.
Qed.

Lemma validated_path_stable_witness :
  Path (path_str (Path (lit "./docs//My Notes.docx")))
  = Path (lit "./docs//My Notes.docx")
  /\ generate_vector_id nfd_latin1 (lit "docs/My Notes.docx") 0
     = generate_vector_id nfd_latin1 (lit "./docs//My Notes.docx") 0.
Proof.
  destruct (validated_path_stable every_path nfd_latin1 fixed_clock
              (lit "./docs//My Notes.docx")
              (Path (lit "./docs//My Notes.docx")))
    as (Hpath & _ & Hid & _); [reflexivity|].
  split; [exact Hpath | exact (Hid 0)].
Defined.

(** ** Guards of the later steps *)

Section Guards.
Variable nfd : str -> str.
Variable now_isoformat : Z -> str.
Variable Embedding : Type.
Variable Index : Type.
Variable index_upsert :
  Index -> list (vector Embedding) -> result (option Z) * Index.
Variable embeddings_create : list str -> result (list Embedding).

Local Abbreviation generate_embeddings' :=
  (generate_embeddings Embedding embeddings_create).
Local Abbreviation store_embeddings' :=
  (store_embeddings nfd now_isoformat Embedding Index index_upsert).

(** X16. The class of an error of [generate_embeddings] tells where it
    comes from: a [ValueError] is raised exactly for the empty chunk
    list, before the provider is called; a failure of the provider of
    class [Exception] comes out as a plain [Exception], never as the
    provider's own error class; on success the provider's vectors are
    returned as they are. *)
Theorem generate_embeddings_outcomes (text_chunks : list str) :
  (forall msg,
     generate_embeddings' text_chunks = Raise (ValueError msg)
     <-> text_chunks = []
         /\ msg = lit "Text chunks list cannot be empty")
  /\ (forall msg,
        generate_embeddings' text_chunks <> Raise (OpenAIError msg))
  /\ (forall embeddings,
        generate_embeddings' text_chunks = OK embeddings
        <-> text_chunks <> []
            /\ embeddings_create text_chunks = OK embeddings)
  /\ (forall msg,
        generate_embeddings' text_chunks = Raise (Exception_ msg) ->
        exists cause,
          embeddings_create text_chunks = Raise cause
          /\ is_Exception cause = true).
Proof.
  unfold generate_embeddings.
  destruct text_chunks as [|c cs]; cbn [falsy];
    [|destruct (embeddings_create (c :: cs)) as [embs|e];
      [|destruct e; cbn [is_Exception exn_str]]];
    (split; [intros m1; split; [intros H|intros [H1 H2]]
            |split; [intros m2 H
                    |split; [intros embs'; split; [intros H|intros [H1 H2]]
                            |intros m3 H]]]);
    try congruence; try done;
    try (injection H as <-; done);
    try (split; [done | congruence]);
    try (eexists; split; reflexivity).
Qed.

(** X17. After a successful split the guards against an empty chunk
    list in the two later steps cannot fire: [generate_embeddings] does
    not raise a [ValueError] at all, and when [store_embeddings] raises
    one, the cause is an empty or a mismatching list of embeddings. *)
Theorem chunk_guards_unreachable (w w' : pinecone Embedding Index)
  (text file_path : str) (text_chunks : list str) :
  split_text text = OK text_chunks ->
  (forall msg, generate_embeddings' text_chunks <> Raise (ValueError msg))
  /\ (forall embeddings msg,
        store_embeddings' w embeddings text_chunks file_path
        = (Raise (ValueError msg), w') ->
        w' = w
        /\ (embeddings = []
            /\ msg = lit "Embeddings list cannot be empty"
            \/ length embeddings <> length text_chunks
               /\ ValueError msg
                  = count_mismatch_error Embedding embeddings text_chunks)).
Proof.
  intros Hs. apply split_text_ok_inv in Hs as (_ & _ & Hne).
  destruct text_chunks as [|c cs]; [done|]. split.
  - intros msg. unfold generate_embeddings. cbn [falsy].
    destruct (embeddings_create _) as [?|e]; [done|]. by destruct e.
  - intros embeddings msg.
    destruct (decide (embeddings = []
                      \/ length embeddings <> length (c :: cs)))
      as [Hbad|Hgood].
    + unfold store_embeddings. destruct embeddings as [|e es]; cbn [falsy].
      * intros [= <- <-]. split; [done | by left].
      * destruct (Z.eqb_spec (len (e :: es)) (len (c :: cs))) as [E|_].
        { unfold len in E. destruct Hbad as [?|Hlen]; [done | lia]. }
        cbn [negb]. intros E.
        pose proof (f_equal fst E) as E1. pose proof (f_equal snd E) as E2.
        cbn [fst snd] in E1, E2. subst w'. split; [done|]. right.
        destruct Hbad as [?|Hlen]; [done|]. split; [done|]. congruence.
    + assert (Hnil : embeddings <> []) by tauto.
      assert (Hlen : length embeddings = length (c :: cs)) by lia.
      rewrite store_embeddings_sends by done. intros E.
      pose proof (f_equal fst E) as Hr. cbn [fst] in Hr.
      destruct (index_upsert _ _).1 as [?|e]; [done|].
      destruct e; simpl in Hr; discriminate.
Qed.
End Guards.

Lemma generate_embeddings_outcomes_witness :
  generate_embeddings Z exact_embeddings []
  = Raise (ValueError (lit "Text chunks list cannot be empty"))
  /\ generate_embeddings Z exact_embeddings [lit "Hello"] = OK [0]
  /\ exists cause,
       (fun _ : list str => Raise (OpenAIError (lit "quota")) : result (list Z))
         [lit "Hello"] = Raise cause
       /\ is_Exception cause = true.
Proof.
  split; [|split].
  - destruct (generate_embeddings_outcomes Z exact_embeddings [])
      as (Hvalue & _).
    apply Hvalue. split; reflexivity.
  - destruct (generate_embeddings_outcomes Z exact_embeddings [lit "Hello"])
      as (_ & _ & Hok & _).
    apply Hok. split; [discriminate | reflexivity].
  - destruct (generate_embeddings_outcomes Z
                (fun _ => Raise (OpenAIError (lit "quota"))) [lit "Hello"])
      as (_ & _ & _ & Hplain).
    apply (Hplain (lit "OpenAI API error: quota")). reflexivity.
Defined.

Lemma chunk_guards_unreachable_witness :
  generate_embeddings Z lossy_embeddings [lit "Hello"]
  <> Raise (ValueError (lit "Text chunks list cannot be empty"))
  /\ (empty_pinecone = empty_pinecone
      /\ ([] = @nil Z /\ lit "Embeddings list cannot be empty"
                         = lit "Embeddings list cannot be empty"
          \/ length (@nil Z) <> length [lit "Hello"]
             /\ ValueError (lit "Embeddings list cannot be empty")
                = count_mismatch_error Z [] [lit "Hello"])).
Proof.
  destruct (chunk_guards_unreachable nfd_latin1 fixed_clock Z memory_index
              memory_upsert lossy_embeddings empty_pinecone empty_pinecone
              (lit " Hello ") (lit "notes.docx") [lit "Hello"])
    as (Hembed & Hstore); [reflexivity|].
  split; [apply Hembed|].
  apply (Hstore [] (lit "Embeddings list cannot be empty")). reflexivity.
Defined.
